(** * Distributed_network: the peer graph and the flood broadcast of core.py

    A shallow embedding of [core.py].  Python objects live in a store
    indexed by object identity; the methods of [Node] and of its subclasses
    are functions in a state-and-exception monad over that store.  The
    recursive methods take a bound on the depth of their own recursion, and
    raise [RecursionError] when it is used up, as CPython does at its
    recursion limit; the frames of the other calls are not counted. *)

From Stdlib Require Import Ascii.
From stdpp Require Import base option list strings gmap fin_maps pretty.

(** ** Data model *)

(** [class Roles(Enum)]. *)
Inductive Roles := ENCRYPTER | SENDER | RECEIVER | WORD_GENERATOR.

Global Instance Roles_eq_dec : EqDecision Roles.
Proof. solve_decision. Defined.

(** The concrete classes of the module.  All of them inherit [connect],
    [send_message] and [set_role] from [Node]; only [Receiver] defines
    [receive_message]. *)
Inductive klass := Node | Encrypter | Sender | Receiver | WordGenerator.

(** Object identity: what Python's [is] compares.  [Node] defines no
    [__eq__], so [==] and [in] on nodes compare identities too. *)
Abbreviation loc := positive (only parsing).

(** The attributes [Node.__init__] sets, plus the object's class. *)
Record instance := Instance {
  klass_of : klass;
  id : Z;
  peers : list loc;
  role : Roles
}.

Definition with_peers (ps : list loc) (o : instance) : instance :=
  Instance (klass_of o) (id o) ps (role o).

Definition with_role (r : Roles) (o : instance) : instance :=
  Instance (klass_of o) (id o) (peers o) r.

(** What a run leaves behind besides the store: the calls of the broadcast
    methods and of [print], in the order they are made. *)
Inductive event :=
  | Call_send_message (self : loc) (message : string) (sender : loc)
  | Call_receive_message (self : loc) (message : string) (sender : loc)
  | Call_print (line : string).

Record world := World {
  heap : gmap loc instance;
  trace : list event
}.

Definition empty_world : world := World ∅ [].

(** The text written to standard output, one entry per [print] call. *)
Definition printed (e : event) : option string :=
  match e with Call_print line => Some line | _ => None end.

Definition stdout (w : world) : list string := omap printed (trace w).

(** ** The monad *)

Inductive exn :=
  | ValueError (msg : string)
  | AttributeError
  | RecursionError
  | InvalidRef.   (* a reference to no object; no Python program has one *)

Inductive outcome (A : Type) :=
  | Return (a : A)
  | Raise (e : exn).
Arguments Return {A} a.
Arguments Raise {A} e.

(** A computation runs from a world to an outcome and the world it leaves;
    an exception keeps the writes made before it was raised. *)
Definition M (A : Type) : Type := world → outcome A * world.

Definition ret {A} (a : A) : M A := λ w, (Return a, w).

Definition bind {A B} (c : M A) (k : A → M B) : M B := λ w,
  match c w with
  | (Return a, w') => k a w'
  | (Raise e, w') => (Raise e, w')
  end.

Definition raise {A} (e : exn) : M A := λ w, (Raise e, w).

Notation "'do' x <- c 'in' k" := (bind c (λ x, k))
  (at level 10, x name, c at level 100, k at level 200,
   format "'[v' 'do'  x  <-  c  'in' '/' k ']'").
Notation "'run' c 'in' k" := (bind c (λ _, k))
  (at level 10, c at level 100, k at level 200,
   format "'[v' 'run'  c  'in' '/' k ']'").

Definition deref (l : loc) : M instance := λ w,
  match heap w !! l with
  | Some o => (Return o, w)
  | None => (Raise InvalidRef, w)
  end.

Definition store (l : loc) (o : instance) : M unit := λ w,
  (Return tt, World (<[l := o]> (heap w)) (trace w)).

Definition emit (e : event) : M unit := λ w,
  (Return tt, World (heap w) (trace w ++ [e])).

(** [for x in xs: body(x)] over a list no statement of the body writes to. *)
Fixpoint for_each {A} (body : A → M unit) (xs : list A) : M unit :=
  match xs with
  | [] => ret tt
  | x :: xs' => run body x in for_each body xs'
  end.

(** ** Constructors *)

(** A new object gets an identity no live object has. *)
Definition alloc (o : instance) : M loc := λ w,
  let l := fresh (dom (heap w)) in
  (Return l, World (<[l := o]> (heap w)) (trace w)).

(** [Node.__init__], reached through [Node(identifier, role)]. *)
Definition Node_init (c : klass) (identifier : Z) (r : Roles) : M loc :=
  alloc (Instance c identifier [] r).

Definition new_Node (identifier : Z) (r : Roles) : M loc :=
  Node_init Node identifier r.
Definition new_Encrypter (identifier : Z) : M loc :=
  Node_init Encrypter identifier ENCRYPTER.
Definition new_Sender (identifier : Z) : M loc :=
  Node_init Sender identifier SENDER.
Definition new_Receiver (identifier : Z) : M loc :=
  Node_init Receiver identifier RECEIVER.
Definition new_WordGenerator (identifier : Z) : M loc :=
  Node_init WordGenerator identifier WORD_GENERATOR.

(** ** Methods *)

(** [Node.connect].  The reciprocal call re-enters [connect] on the other
    node, which re-enters it on this one: [depth] bounds that nesting. *)
Fixpoint connect (depth : nat) (self node : loc) : M unit :=
  match depth with
  | O => raise RecursionError
  | S depth' =>
      do o <- deref self in
      if bool_decide (node ∉ peers o) then
        run store self (with_peers (peers o ++ [node]) o) in
        connect depth' node self
      else ret tt
  end.

(** [Node.set_role]. *)
Definition set_role (self : loc) (r : Roles) : M unit :=
  do o <- deref self in
  if bool_decide (role o = WORD_GENERATOR) then
    raise (ValueError "WordGenerator role cannot be changed.")
  else store self (with_role r o).

(** The f-string of [Receiver.receive_message]. *)
Definition receipt_line (receiver_id sender_id : Z) (message : string) : string :=
  "Receiver id=" +:+ pretty receiver_id +:+
  " received a message from sender id=" +:+ pretty sender_id +:+
  ": " +:+ message.

(** [Receiver.receive_message].  The first line records the call; an
    [int] is formatted in decimal, which is what [pretty] does on [Z]. *)
Definition receive_message (self : loc) (message : string) (sender : loc) : M unit :=
  run emit (Call_receive_message self message sender) in
  do o <- deref self in
  do s <- deref sender in
  emit (Call_print (receipt_line (id o) (id s) message)).

(** The attribute lookup of [peer.receive_message(message, sender)]: the
    method exists on instances of [Receiver] only.  The frames of
    [receive_message] and of [print] are not counted: [depth] below bounds
    the nesting of [send_message] only, so a statement that a broadcast
    returns is about a stack with enough room, not about a number of
    Python frames. *)
Definition call_receive_message (peer : loc) (message : string) (sender : loc) : M unit :=
  do p <- deref peer in
  match klass_of p with
  | Receiver => receive_message peer message sender
  | _ => raise AttributeError
  end.

(** The body of the loop of [Node.send_message], for one [peer];
    [send] is the method to call on a peer that is forwarded to. *)
Definition forward (send : loc → string → loc → M unit)
    (self : loc) (message : string) (sender : loc) (peer : loc) : M unit :=
  do p <- deref peer in
  if bool_decide (role p = RECEIVER) then
    call_receive_message peer message sender
  else if bool_decide (peer ≠ self) then
    send peer message self
  else ret tt.

(** [Node.send_message]; [depth] is the number of nested calls of it that
    the interpreter still allows.  The first line is not a statement of the
    method: it records in the trace that the method was entered, and with
    which arguments. *)
Fixpoint send_message (depth : nat) (self : loc) (message : string) (sender : loc) : M unit :=
  run emit (Call_send_message self message sender) in
  match depth with
  | O => raise RecursionError
  | S depth' =>
      do o <- deref self in
      for_each (forward (send_message depth') self message sender) (peers o)
  end.

(** ** Programs

    The operations a client of the module has: the five constructors and
    the methods.  [exec] runs one, [after_all] a sequence of them, going on
    after an exception as a client that catches it would. *)
Definition new (c : klass) (identifier : Z) (r : Roles) : M loc :=
  match c with
  | Node => new_Node identifier r
  | Encrypter => new_Encrypter identifier
  | Sender => new_Sender identifier
  | Receiver => new_Receiver identifier
  | WordGenerator => new_WordGenerator identifier
  end.

Inductive op :=
  | New (c : klass) (identifier : Z) (r : Roles)
  | Connect (depth : nat) (self node : loc)
  | Set_role (self : loc) (r : Roles)
  | Send_message (depth : nat) (self : loc) (message : string) (sender : loc)
  | Receive_message (self : loc) (message : string) (sender : loc).

Definition exec (o : op) : M unit :=
  match o with
  | New c identifier r => run new c identifier r in ret tt
  | Connect depth self node => connect depth self node
  | Set_role self r => set_role self r
  | Send_message depth self message sender => send_message depth self message sender
  | Receive_message self message sender => call_receive_message self message sender
  end.

Definition after (o : op) (w : world) : world := snd (exec o w).

Definition after_all (os : list op) (w : world) : world :=
  foldl (λ w o, after o w) w os.

(** The role of the object at [l], if there is one. *)
Definition role_at (w : world) (l : loc) : option Roles := role <$> heap w !! l.

(** The worlds a program reaches from the empty one.  A [connect] that is
    cut short by [RecursionError] is not a step: it can stop between the two
    appends. *)
Inductive reachable : world → Prop :=
  | reachable_empty : reachable empty_world
  | reachable_new w c identifier r :
      reachable w → reachable (snd (new c identifier r w))
  | reachable_connect w depth self node w' :
      reachable w → connect depth self node w = (Return tt, w') → reachable w'
  | reachable_set_role w self r :
      reachable w → reachable (snd (set_role self r w))
  | reachable_send_message w depth self message sender :
      reachable w → reachable (snd (send_message depth self message sender w))
  | reachable_receive_message w self message sender :
      reachable w → reachable (snd (call_receive_message self message sender w)).

(** ** Invariants of the peer graph *)

(** [links h a b]: the object [a] of the store [h] lists [b] as a peer. *)
Definition links (h : gmap loc instance) (a b : loc) : Prop :=
  ∃ oa, h !! a = Some oa ∧ b ∈ peers oa.

(** Whoever is listed as a peer exists and lists the lister back. *)
Definition peer_symmetric (h : gmap loc instance) : Prop :=
  ∀ a b, links h a b → links h b a.

Definition peer_nodup (h : gmap loc instance) : Prop :=
  ∀ a oa, h !! a = Some oa → NoDup (peers oa).

(** The number of entries of [l]'s peer list that are the object [p]. *)
Definition entries (w : world) (l p : loc) : option nat :=
  (λ o, length (filter (λ x, x = p) (peers o))) <$> heap w !! l.

(** ** What a broadcast may do

    [quiet h Q c]: started in a world whose store is [h], the computation
    [c] ends (normally or not) in a world with the same store, and what it
    adds to the trace satisfies [Q]. *)
Definition quiet {A} (h : gmap loc instance) (Q : event → Prop) (c : M A) : Prop :=
  ∀ t, ∃ evs, snd (c (World h t)) = World h (t ++ evs) ∧ Forall Q evs.

(** The events a broadcast of [message] over the store [h] may add below its
    own call: [send_message] only on a node whose role is not RECEIVER,
    [receive_message] only on an instance of [Receiver] whose role is
    RECEIVER, and only receipt lines for [message] on standard output. *)
Definition broadcast_event (h : gmap loc instance) (message : string) (e : event) : Prop :=
  match e with
  | Call_send_message p m _ =>
      m = message ∧ ∃ o, h !! p = Some o ∧ role o ≠ RECEIVER
  | Call_receive_message p m _ =>
      m = message ∧ ∃ o, h !! p = Some o ∧ role o = RECEIVER ∧ klass_of o = Receiver
  | Call_print line =>
      ∃ receiver_id sender_id, line = receipt_line receiver_id sender_id message
  end.

(** ** Topologies *)

(** [ping_pong h G]: in the store [h], every node of the group [G] has a
    first peer that is another node, of a role other than RECEIVER, and
    again in [G].  The loop of [send_message] forwards to that peer before
    it looks at any other. *)
Definition ping_pong (h : gmap loc instance) (G : loc → Prop) : Prop :=
  ∀ x, G x →
    ∃ ox p ps op,
      h !! x = Some ox ∧ peers ox = p :: ps ∧ p ≠ x
      ∧ h !! p = Some op ∧ role op ≠ RECEIVER ∧ G p.

(** An object as its constructor leaves it: no peers yet. *)
Definition unconnected (w : world) (l : loc) (o : instance) : Prop :=
  heap w !! l = Some o ∧ peers o = [].

(** [hub.connect(first); hub.connect(second)], each call with three frames
    or more. *)
Definition star (d1 d2 : nat) (hub first second : loc) (w : world) : world :=
  after_all [Connect (S (S (S d1))) hub first;
             Connect (S (S (S d2))) hub second] w.

(** [a.connect(b); b.connect(c); c.connect(a)] *)
Definition triangle (d1 d2 d3 : nat) (a b c : loc) (w : world) : world :=
  after_all [Connect (S (S (S d1))) a b; Connect (S (S (S d2))) b c;
             Connect (S (S (S d3))) c a] w.

(** [a = Sender(10); b = Sender(20); c = Receiver(30); a.connect(b);
    b.connect(c)].  The three objects get the identities 1, 2 and 3. *)
Definition chain_world : world :=
  snd ((do a <- new_Sender 10 in
        do b <- new_Sender 20 in
        do c <- new_Receiver 30 in
        run connect 3 a b in
        connect 3 b c) empty_world).

(** [n = Sender(10); r = Receiver(20); s = Sender(30); n.connect(r)] *)
Definition relay_world : world :=
  snd ((do n <- new_Sender 10 in
        do r <- new_Receiver 20 in
        do s <- new_Sender 30 in
        connect 3 n r) empty_world).

(** [n = Sender(10); p = Sender(20); p.set_role(Roles.RECEIVER);
    n.connect(p)] *)
Definition demoted_world : world :=
  snd ((do n <- new_Sender 10 in
        do p <- new_Sender 20 in
        run set_role p RECEIVER in
        connect 3 n p) empty_world).

(** [h = Sender(10); r1 = Receiver(20); r2 = Receiver(30)], not connected. *)
Definition loose_star_world : world :=
  snd ((do h <- new_Sender 10 in
        do r1 <- new_Receiver 20 in
        new_Receiver 30) empty_world).

(** [a = Sender(10); b = Sender(20); c = Sender(30)], not connected. *)
Definition loose_triangle_world : world :=
  snd ((do a <- new_Sender 10 in
        do b <- new_Sender 20 in
        new_Sender 30) empty_world).

(** [a = Sender(10); b = Receiver(20); b' = Receiver(20)]: two objects with
    one id. *)
Definition twins_world : world :=
  snd (new Receiver 20 RECEIVER
         (snd (new Receiver 20 RECEIVER
                 (snd (new Sender 10 SENDER empty_world))))).

(** ** The rest of [Node] *)

(** [Roles.<member>.value]. *)
Definition Roles_value (r : Roles) : string :=
  match r with
  | ENCRYPTER => "encrypter"
  | SENDER => "sender"
  | RECEIVER => "receiver"
  | WORD_GENERATOR => "word_generator"
  end.

(** The f-string of [Node.__str__]. *)
Definition node_text (identifier : Z) (r : Roles) : string :=
  "Node id=" +:+ pretty identifier +:+ ", Role=" +:+ Roles_value r.

(** [Node.__str__]. *)
Definition __str__ (self : loc) : M string :=
  do o <- deref self in
  ret (node_text (id o) (role o)).

(** The characters of a decimal numeral, and the texts made of them. *)
Definition numeral_char (c : ascii) : bool :=
  bool_decide
    (c ∈ ["0"; "1"; "2"; "3"; "4"; "5"; "6"; "7"; "8"; "9"; "-"]%char).

Fixpoint numeral (s : string) : bool :=
  match s with
  | EmptyString => true
  | String c s' => numeral_char c && numeral s'
  end.

(** An instance of [Receiver] whose role is still RECEIVER. *)
Definition true_receiver (h : gmap loc instance) (p : loc) : Prop :=
  ∃ o, h !! p = Some o ∧ role o = RECEIVER ∧ klass_of o = Receiver.

(** The receipt lines of the peers [ps] whose role is RECEIVER, in the
    order of [ps], for a message from the node with the id [sender_id]. *)
Definition receipts (h : gmap loc instance) (sender_id : Z) (message : string)
    (ps : list loc) : list string :=
  omap (λ p, o ← h !! p;
             if bool_decide (role o = RECEIVER)
             then Some (receipt_line (id o) sender_id message) else None) ps.

(** [a = Sender(10); b = Sender(20); a.connect(b)] *)
Definition two_senders_world : world :=
  snd (connect 3 1 2
         (snd (new Sender 20 SENDER (snd (new Sender 10 SENDER empty_world))))).

(** [h = Sender(10); r1 = Receiver(20); r2 = Receiver(30); h.connect(r1);
    h.connect(r2)] *)
Definition star_world : world := star 0 0 1 2 3 loose_star_world.

(** [h = Sender(10); r1 = Node(20, Roles.RECEIVER); r2 = Receiver(30);
    h.connect(r1); h.connect(r2)]: the role of [r1] is RECEIVER, its class
    is [Node]. *)
Definition plain_star_world : world :=
  snd ((do h <- new_Sender 10 in
        do r1 <- new_Node 20 RECEIVER in
        do r2 <- new_Receiver 30 in
        run connect 3 h r1 in
        connect 3 h r2) empty_world).

(** * Properties *)

(** ** Running the monad *)

Lemma bind_Return {A B} (c : M A) (k : A → M B) w a w' :
  c w = (Return a, w') → bind c k w = k a w'.
Proof. intros E. unfold bind. by rewrite E. Qed.

Lemma bind_Raise {A B} (c : M A) (k : A → M B) w e w' :
  c w = (Raise e, w') → bind c k w = (Raise e, w').
Proof. intros E. unfold bind. by rewrite E. Qed.

Lemma deref_Some l o w : heap w !! l = Some o → deref l w = (Return o, w).
Proof. intros E. unfold deref. by rewrite E. Qed.

Lemma for_each_app {A} (body : A → M unit) xs ys w w' :
  for_each body xs w = (Return tt, w') →
  for_each body (xs ++ ys) w = for_each body ys w'.
Proof.
  revert w. induction xs as [|x xs IH]; intros w; simpl.
  - unfold ret. by intros [= ->].
  - unfold bind. destruct (body x w) as [[[]|e] w1]; [|done].
    apply IH.
Qed.

(** ** What a broadcast may do *)

Section quiet.
Context (h : gmap loc instance) (Q : event → Prop).

Lemma quiet_ret {A} (a : A) : quiet h Q (ret a).
Proof. intros t. exists []. by rewrite app_nil_r. Qed.

Lemma quiet_raise {A} e : quiet h Q (@raise A e).
Proof. intros t. exists []. by rewrite app_nil_r. Qed.

Lemma quiet_emit e : Q e → quiet h Q (emit e).
Proof. intros He t. exists [e]. split; [done|]. by constructor. Qed.

Lemma quiet_bind {A B} (c : M A) (k : A → M B) :
  quiet h Q c → (∀ a, quiet h Q (k a)) → quiet h Q (bind c k).
Proof.
  intros Hc Hk t. destruct (Hc t) as (evs & E & Hevs). unfold bind.
  destruct (c (World h t)) as [[a|e] w1]; simpl in E; subst w1.
  - destruct (Hk a (t ++ evs)) as (evs' & E' & Hevs').
    exists (evs ++ evs'). rewrite E', app_assoc. split; [done|].
    by apply Forall_app.
  - by exists evs.
Qed.

Lemma quiet_deref {B} l (k : instance → M B) :
  (∀ o, h !! l = Some o → quiet h Q (k o)) → quiet h Q (bind (deref l) k).
Proof.
  intros Hk t. unfold bind, deref. simpl.
  destruct (h !! l) as [o|] eqn:E.
  - by apply Hk.
  - exists []. by rewrite app_nil_r.
Qed.

Lemma quiet_for_each {A} (body : A → M unit) xs :
  (∀ x, x ∈ xs → quiet h Q (body x)) → quiet h Q (for_each body xs).
Proof.
  induction xs as [|x xs IH]; intros Hbody; simpl.
  - apply quiet_ret.
  - apply quiet_bind.
    + apply Hbody. by left.
    + intros _. apply IH. intros y Hy. apply Hbody. by right.
Qed.
End quiet.

Lemma receive_message_quiet h self message sender o :
  h !! self = Some o → role o = RECEIVER → klass_of o = Receiver →
  quiet h (broadcast_event h message) (receive_message self message sender).
Proof.
  intros Ho Hr Hk. unfold receive_message.
  apply quiet_bind; [apply quiet_emit; simpl; eauto 10|intros _].
  apply quiet_deref; intros o' _. apply quiet_deref; intros s _.
  apply quiet_emit. simpl. eauto.
Qed.

Lemma call_receive_message_quiet h peer message sender o :
  h !! peer = Some o → role o = RECEIVER →
  quiet h (broadcast_event h message) (call_receive_message peer message sender).
Proof.
  intros Ho Hr. unfold call_receive_message.
  apply quiet_deref; intros p Hp. assert (p = o) as -> by congruence.
  destruct (klass_of o) eqn:Hk; try apply quiet_raise.
  by eapply receive_message_quiet.
Qed.

Lemma send_message_body_quiet h depth self message sender :
  ∀ t, ∃ evs,
    snd (send_message depth self message sender (World h t))
    = World h (t ++ Call_send_message self message sender :: evs)
    ∧ Forall (broadcast_event h message) evs.
Proof.
  revert self sender. induction depth as [|depth IH]; intros self sender t.
  - exists []. simpl. unfold bind, emit, raise. simpl. by split.
  - simpl. unfold bind at 1. unfold emit at 1. simpl.
    set (t1 := t ++ [Call_send_message self message sender]).
    assert (quiet h (broadcast_event h message)
      (do o <- deref self in
       for_each (forward (send_message depth) self message sender) (peers o)))
      as Hq.
    { apply quiet_deref; intros o _. apply quiet_for_each; intros peer _.
      unfold forward. apply quiet_deref; intros p Hp.
      case_bool_decide as Hr; [by eapply call_receive_message_quiet|].
      case_bool_decide as Hs; [|apply quiet_ret].
      intros t'. destruct (IH peer self t') as (evs & E & Hevs).
      exists (Call_send_message peer message self :: evs). split; [done|].
      constructor; [|done]. simpl. eauto. }
    destruct (Hq t1) as (evs & E & Hevs). exists evs. split; [|done].
    rewrite E. unfold t1. by rewrite <- app_assoc.
Qed.

Lemma stdout_app h t evs :
  stdout (World h (t ++ evs)) = stdout (World h t) ++ omap printed evs.
Proof. unfold stdout. simpl. apply omap_app. Qed.

Lemma call_receive_message_trace peer message sender h t :
  ∃ evs,
    snd (call_receive_message peer message sender (World h t)) = World h (t ++ evs)
    ∧ ∀ p m s, Call_send_message p m s ∉ evs.
Proof.
  unfold call_receive_message, receive_message, bind, deref, emit, raise. simpl.
  destruct (h !! peer) as [p|] eqn:Hp; simpl;
    [destruct (klass_of p); simpl; rewrite ?Hp; simpl;
     try destruct (h !! sender); simpl|].
  all: try (exists []; rewrite app_nil_r; split; [done|];
            intros ???; apply not_elem_of_nil).
  - eexists [_; _]. rewrite <- app_assoc. split; [done|].
    intros ???. rewrite !elem_of_cons, elem_of_nil. by intros [|[|]].
  - eexists [_]. split; [done|].
    intros ???. rewrite !elem_of_cons, elem_of_nil. by intros [|].
Qed.

(** ** Role assignment *)

(** C5.  [set_role] raises exactly when the current role of the node is
    WORD_GENERATOR.  When it raises, the world it leaves is the world it
    started in, whatever the role asked for.  When the current role is
    another one it returns, and afterwards the role of the node is the new
    one, its other attributes and all other objects being as before. *)
Theorem set_role_spec (w : world) (self : loc) (o : instance) (new_role : Roles) :
  heap w !! self = Some o →
  ((∃ e, fst (set_role self new_role w) = Raise e) ↔ role o = WORD_GENERATOR)
  ∧ (role o = WORD_GENERATOR →
       set_role self new_role w
       = (Raise (ValueError "WordGenerator role cannot be changed."), w))
  ∧ (role o ≠ WORD_GENERATOR →
       set_role self new_role w
       = (Return tt, World (<[self := with_role new_role o]> (heap w)) (trace w))
       ∧ role_at (snd (set_role self new_role w)) self = Some new_role).
Proof.
  intros Ho. unfold set_role, role_at, bind, deref, raise, store. rewrite Ho.
  case_bool_decide as Hr; simpl.
  - split; [split; eauto|]. split; [done|]. by intros [].
  - split; [split; [by intros [e [=]]|done]|]. split; [done|]. intros _.
    split; [done|]. by rewrite lookup_insert_eq.
Qed.

(** ** The broadcast *)

(** C8.  In a traversal started by [send_message], every call of
    [send_message] below the first one is on a node whose role is not
    RECEIVER: a peer whose role is RECEIVER gets [receive_message], and that
    call enters no [send_message], so nothing is forwarded past it. *)
Theorem receiver_is_terminal
    (depth : nat) (self : loc) (message : string) (sender : loc) (w : world) :
  (∃ evs,
     trace (snd (send_message depth self message sender w))
     = trace w ++ Call_send_message self message sender :: evs
     ∧ ∀ p m s, Call_send_message p m s ∈ evs →
         ∃ o, heap w !! p = Some o ∧ role o ≠ RECEIVER)
  ∧ (∀ peer s, ∃ evs,
       snd (call_receive_message peer message s w)
       = World (heap w) (trace w ++ evs)
       ∧ ∀ p m s', Call_send_message p m s' ∉ evs).
Proof.
  destruct w as [h t]. simpl. split.
  - destruct (send_message_body_quiet h depth self message sender t)
      as (evs & E & Hevs).
    exists evs. rewrite E. split; [done|]. intros p m s Hin.
    rewrite Forall_forall in Hevs. apply Hevs in Hin as [_ Hp]. exact Hp.
  - intros peer s. apply call_receive_message_trace.
Qed.

(** C9.  [send_message], with the [receive_message] calls it makes, writes
    to no object: whether it returns or raises, the store it leaves is the
    store it started in, so every node has the id, role and peer list it
    had.  Its only effect is on standard output, which it extends by receipt
    lines for the message. *)
Theorem send_message_frame
    (depth : nat) (self : loc) (message : string) (sender : loc) (w : world) :
  heap (snd (send_message depth self message sender w)) = heap w
  ∧ ∃ lines,
      stdout (snd (send_message depth self message sender w)) = stdout w ++ lines
      ∧ Forall (λ line, ∃ receiver_id sender_id,
                  line = receipt_line receiver_id sender_id message) lines.
Proof.
  destruct w as [h t].
  destruct (send_message_body_quiet h depth self message sender t)
    as (evs & E & Hevs).
  rewrite E. split; [done|]. exists (omap printed evs).
  split; [by rewrite stdout_app|].
  apply Forall_forall. intros line Hline.
  apply list_elem_of_omap in Hline as (e & He & Hp).
  rewrite Forall_forall in Hevs. destruct e; simplify_eq/=.
  by apply Hevs in He.
Qed.

(** ** Connection management *)

Lemma connect_S depth self node w :
  connect (S depth) self node w
  = (do o <- deref self in
     if bool_decide (node ∉ peers o) then
       run store self (with_peers (peers o ++ [node]) o) in
       connect depth node self
     else ret tt) w.
Proof. done. Qed.

Lemma connect_known depth self node w o :
  heap w !! self = Some o → node ∈ peers o →
  connect (S depth) self node w = (Return tt, w).
Proof.
  intros Ho Hin. simpl. unfold bind, deref. rewrite Ho.
  by rewrite bool_decide_eq_false_2 by auto.
Qed.

(** A first connection of two distinct nodes appends each to the other's
    list; it needs three frames. *)
Lemma connect_new depth a b h t oa ob :
  a ≠ b → h !! a = Some oa → h !! b = Some ob →
  b ∉ peers oa → a ∉ peers ob →
  connect (S (S (S depth))) a b (World h t)
  = (Return tt,
     World (<[b := with_peers (peers ob ++ [a]) ob]>
              (<[a := with_peers (peers oa ++ [b]) oa]> h)) t).
Proof.
  intros Hab Ha Hb Hnb Hna.
  cbn [connect]. unfold bind at 1, deref at 1. cbn [heap]. rewrite Ha.
  rewrite bool_decide_eq_true_2 by done.
  unfold bind at 1, store at 1. cbn [heap trace].
  unfold bind at 1, deref at 1. cbn [heap].
  rewrite lookup_insert_ne, Hb by done.
  rewrite bool_decide_eq_true_2 by done.
  unfold bind at 1, store at 1. cbn [heap trace].
  unfold bind at 1, deref at 1. cbn [heap].
  rewrite lookup_insert_ne, lookup_insert_eq by done. cbn [peers with_peers].
  rewrite bool_decide_eq_false_2; [done|].
  intros Hn. apply Hn. set_solver.
Qed.

(** The worlds in which [connect] can return. *)
Lemma connect_Return depth a b h t w' oa :
  h !! a = Some oa →
  connect depth a b (World h t) = (Return tt, w') →
  let h1 := <[a := with_peers (peers oa ++ [b]) oa]> h in
  ((b ∈ peers oa ∧ w' = World h t)
   ∨ ((b ∉ peers oa) ∧ ∃ ob, h1 !! b = Some ob ∧
        ((a ∈ peers ob ∧ w' = World h1 t)
         ∨ (a ≠ b ∧ (a ∉ peers ob) ∧
            w' = World (<[b := with_peers (peers ob ++ [a]) ob]> h1) t)))).
Proof.
  intros Ha E h1. destruct depth as [|d1]; [done|].
  cbn [connect] in E. unfold bind at 1, deref at 1 in E. cbn [heap] in E.
  rewrite Ha in E. case_bool_decide as Hb;
    [|unfold ret in E; left; by simplify_eq].
  right. split; [done|].
  unfold bind at 1, store at 1 in E. cbn [heap trace] in E. fold h1 in E.
  destruct d1 as [|d2]; [done|].
  cbn [connect] in E. unfold bind at 1, deref at 1 in E. cbn [heap] in E.
  destruct (h1 !! b) as [ob|] eqn:Hob; [|done]. exists ob. split; [done|].
  case_bool_decide as Hna;
    [|unfold ret in E; left; by simplify_eq].
  right. assert (a ≠ b) as Hab.
  { intros ->. unfold h1 in Hob. rewrite lookup_insert_eq in Hob.
    injection Hob as <-. apply Hna. cbn. set_solver. }
  do 2 (split; [done|]).
  unfold bind at 1, store at 1 in E. cbn [heap trace] in E.
  destruct d2 as [|d3]; [done|].
  rewrite (connect_known _ _ _ _ (with_peers (peers oa ++ [b]) oa)) in E.
  - congruence.
  - cbn [heap]. unfold h1. by rewrite lookup_insert_ne, lookup_insert_eq.
  - cbn. set_solver.
Qed.

(** With three frames [connect] returns. *)
Lemma connect_returns depth a b w :
  is_Some (heap w !! a) → is_Some (heap w !! b) →
  fst (connect (S (S (S depth))) a b w) = Return tt.
Proof.
  destruct w as [h t]. intros [oa Ha] [ob Hb]. cbn [heap] in *.
  destruct (decide (b ∈ peers oa)) as [Hin|Hin].
  { by rewrite (connect_known _ _ _ _ oa). }
  rewrite connect_S. unfold bind at 1, deref at 1. cbn [heap]. rewrite Ha.
  rewrite bool_decide_eq_true_2 by done.
  unfold bind at 1, store at 1. cbn [heap trace].
  set (h1 := <[a := with_peers (peers oa ++ [b]) oa]> h).
  rewrite connect_S. unfold bind at 1, deref at 1. cbn [heap].
  assert (is_Some (h1 !! b)) as [ob1 Hob1].
  { unfold h1. destruct (decide (a = b)) as [->|];
      [rewrite lookup_insert_eq|rewrite lookup_insert_ne by done]; eauto. }
  rewrite Hob1. case_bool_decide as Hna; [|done].
  unfold bind at 1, store at 1. cbn [heap trace].
  assert (a ≠ b) as Hab.
  { intros ->. unfold h1 in Hob1. rewrite lookup_insert_eq in Hob1.
    injection Hob1 as <-. apply Hna. cbn. set_solver. }
  rewrite (connect_known _ _ _ _ (with_peers (peers oa ++ [b]) oa)); [done| |].
  - cbn [heap]. unfold h1. by rewrite lookup_insert_ne, lookup_insert_eq.
  - cbn. set_solver.
Qed.

(** ** Invariants of the peer graph *)

Lemma links_append h a b oa x y :
  h !! a = Some oa →
  links (<[a := with_peers (peers oa ++ [b]) oa]> h) x y
  ↔ links h x y ∨ (x = a ∧ y = b).
Proof.
  intros Ha. unfold links. destruct (decide (x = a)) as [->|Hx].
  - rewrite lookup_insert_eq. split.
    + intros (o & [= <-] & Hy). cbn in Hy. apply elem_of_app in Hy as [Hy|Hy].
      * left. eauto.
      * right. apply list_elem_of_singleton in Hy. done.
    + intros [(o & Ho & Hy)|[_ ->]]; eexists; (split; [done|]); cbn.
      * assert (o = oa) as -> by congruence. set_solver.
      * set_solver.
  - rewrite lookup_insert_ne by done. intuition.
Qed.

Lemma links_fresh h l c identifier r x y :
  h !! l = None →
  links (<[l := Instance c identifier [] r]> h) x y ↔ links h x y.
Proof.
  intros Hl. unfold links. destruct (decide (x = l)) as [->|Hx].
  - rewrite lookup_insert_eq, Hl. split.
    + intros (o & [= <-] & Hy). cbn in Hy. by apply elem_of_nil in Hy.
    + by intros (o & [=] & _).
  - by rewrite lookup_insert_ne.
Qed.

Lemma links_with_role h a o r x y :
  h !! a = Some o →
  links (<[a := with_role r o]> h) x y ↔ links h x y.
Proof.
  intros Ha. unfold links. destruct (decide (x = a)) as [->|Hx].
  - rewrite lookup_insert_eq, Ha. split; intros (o' & [= <-] & Hy); eauto.
  - by rewrite lookup_insert_ne.
Qed.

Lemma peer_nodup_append h a b oa :
  peer_nodup h → h !! a = Some oa → b ∉ peers oa →
  peer_nodup (<[a := with_peers (peers oa ++ [b]) oa]> h).
Proof.
  intros Hnd Ha Hb x ox. destruct (decide (x = a)) as [->|Hx].
  - rewrite lookup_insert_eq. intros [= <-]. cbn.
    apply NoDup_app. split; [by eapply Hnd|]. split; [|apply NoDup_singleton].
    intros y Hy Hy'. apply list_elem_of_singleton in Hy'. by subst.
  - rewrite lookup_insert_ne by done. apply Hnd.
Qed.

Lemma connect_deref depth a b w w' :
  connect depth a b w = (Return tt, w') → is_Some (heap w !! a).
Proof.
  destruct depth as [|depth]; [done|]. rewrite connect_S.
  unfold bind at 1, deref. by destruct (heap w !! a).
Qed.

Lemma connect_invariant depth a b w w' :
  peer_symmetric (heap w) → peer_nodup (heap w) →
  connect depth a b w = (Return tt, w') →
  peer_symmetric (heap w') ∧ peer_nodup (heap w').
Proof.
  intros Hsym Hnd E. destruct (connect_deref _ _ _ _ _ E) as [oa Ha].
  destruct w as [h t]. cbn [heap] in *.
  destruct (connect_Return _ _ _ _ _ _ _ Ha E)
    as [[_ ->]|(Hb & ob & Hob & [[Hin ->]|(Hab & Hna & ->)])];
    cbn [heap]; [done| |].
  - split; [|by apply peer_nodup_append].
    intros x y. rewrite !links_append by done. intros [Hxy|[-> ->]].
    + left. by apply Hsym.
    + destruct (decide (a = b)) as [->|Hab]; [by right|].
      rewrite lookup_insert_ne in Hob by done.
      destruct Hb. destruct (Hsym b a) as (oa' & Ha' & Hin'); [by exists ob|].
      congruence.
  - rewrite lookup_insert_ne in Hob by done. split.
    + intros x y.
      rewrite !(links_append _ b a ob), !(links_append h a b oa)
        by (done || by rewrite lookup_insert_ne).
      pose proof (Hsym x y). intuition.
    + apply peer_nodup_append; [by apply peer_nodup_append| |done].
      by rewrite lookup_insert_ne.
Qed.

Lemma alloc_fresh (w : world) : heap w !! fresh (dom (heap w)) = None.
Proof. apply not_elem_of_dom, is_fresh. Qed.

Lemma new_heap c identifier r w :
  ∃ r', heap (snd (new c identifier r w))
        = <[fresh (dom (heap w)) := Instance c identifier [] r']> (heap w).
Proof. destruct c; by eexists. Qed.

Lemma set_role_heap self r w :
  heap (snd (set_role self r w)) = heap w
  ∨ ∃ o, heap w !! self = Some o
         ∧ heap (snd (set_role self r w)) = <[self := with_role r o]> (heap w).
Proof.
  unfold set_role, bind, deref, raise, store.
  destruct (heap w !! self) as [o|]; [|by left].
  case_bool_decide; [by left|right; eauto].
Qed.

Lemma call_receive_message_heap peer message sender w :
  heap (snd (call_receive_message peer message sender w)) = heap w.
Proof.
  destruct w as [h t].
  destruct (call_receive_message_trace peer message sender h t) as (evs & E & _).
  by rewrite E.
Qed.

Lemma send_message_heap depth self message sender w :
  heap (snd (send_message depth self message sender w)) = heap w.
Proof.
  destruct w as [h t].
  destruct (send_message_body_quiet h depth self message sender t) as (evs & E & _).
  by rewrite E.
Qed.

Lemma reachable_invariant w :
  reachable w → peer_symmetric (heap w) ∧ peer_nodup (heap w).
Proof.
  induction 1 as [|w c identifier r _ [Hsym Hnd]|w depth a b w' _ [Hsym Hnd] E
                  |w a r _ [Hsym Hnd]|w depth a m s _ IH|w a m s _ IH].
  - split; [intros a b (o & Ho & _)|intros a o Ho];
      cbn in Ho; by rewrite lookup_empty in Ho.
  - destruct (new_heap c identifier r w) as [r' ->].
    pose proof (alloc_fresh w) as Hl. split.
    + intros x y. rewrite !links_fresh by done. apply Hsym.
    + intros x ox. destruct (decide (x = fresh (dom (heap w)))) as [->|Hx].
      * rewrite lookup_insert_eq. intros [= <-]. apply NoDup_nil_2.
      * rewrite lookup_insert_ne by done. apply Hnd.
  - by eapply connect_invariant.
  - destruct (set_role_heap a r w) as [->|(o & Ho & ->)]; [done|]. split.
    + intros x y. rewrite !links_with_role by done. apply Hsym.
    + intros x ox. destruct (decide (x = a)) as [->|Hx].
      * rewrite lookup_insert_eq. intros [= <-]. cbn. by eapply Hnd.
      * rewrite lookup_insert_ne by done. apply Hnd.
  - by rewrite send_message_heap.
  - by rewrite call_receive_message_heap.
Qed.

Lemma connect_links depth a b w w' :
  connect depth a b w = (Return tt, w') →
  links (heap w') a b ∧ ∀ x y, links (heap w) x y → links (heap w') x y.
Proof.
  intros E. destruct (connect_deref _ _ _ _ _ E) as [oa Ha].
  destruct w as [h t]. cbn [heap] in *.
  destruct (connect_Return _ _ _ _ _ _ _ Ha E)
    as [[Hin ->]|(Hb & ob & Hob & [[Hin ->]|(Hab & Hna & ->)])]; cbn [heap].
  - split; [by exists oa|done].
  - split; [|intros x y]; rewrite links_append by done; auto.
  - split; [|intros x y];
      rewrite (links_append _ b a ob), (links_append h a b oa) by done; auto.
Qed.

Lemma filter_eq_absent (p : loc) (l : list loc) :
  p ∉ l → filter (λ x, x = p) l = [].
Proof.
  induction l as [|x l IH]; [done|]. rewrite not_elem_of_cons. intros [Hx Hl].
  rewrite filter_cons_False by done. by apply IH.
Qed.

Lemma entries_one w a b :
  peer_nodup (heap w) → links (heap w) a b → entries w a b = Some 1.
Proof.
  intros Hnd (oa & Ha & Hin). unfold entries. rewrite Ha. cbn. f_equal.
  specialize (Hnd a oa Ha). induction (peers oa) as [|x l IH]; [by apply elem_of_nil in Hin|].
  apply NoDup_cons in Hnd as [Hx Hl]. destruct (decide (x = b)) as [->|Hxb].
  - rewrite filter_cons_True by done. cbn. by rewrite filter_eq_absent.
  - rewrite filter_cons_False by done. apply IH; [done|].
    apply elem_of_cons in Hin as [Hin|Hin]; [congruence|done].
Qed.

(** C6.  From any world a program can reach, a call [A.connect(B)] that
    completes leaves B in the peer list of A and A in the peer list of B;
    three frames are enough for it to complete.  (A and B need not even be
    distinct.) *)
Theorem connect_symmetric (w : world) (depth : nat) (a b : loc) :
  reachable w → is_Some (heap w !! a) → is_Some (heap w !! b) →
  (3 ≤ depth → fst (connect depth a b w) = Return tt)
  ∧ ∀ w', connect depth a b w = (Return tt, w') →
      links (heap w') a b ∧ links (heap w') b a.
Proof.
  intros Hw Ha Hb. split.
  - intros Hd. do 3 (destruct depth as [|depth]; [lia|]).
    by apply connect_returns.
  - intros w' E. destruct (connect_links _ _ _ _ _ E) as [Hab _].
    split; [done|].
    by apply (reachable_invariant w'); [eapply reachable_connect|].
Qed.

(** C7.  From any world a program can reach, once [A.connect(B)] has
    completed, calling [A.connect(B)] again or [B.connect(A)] changes
    nothing, and each of the two peer lists has exactly one entry for the
    other node.  Membership is by identity: connecting A to another object
    that has the same id as B adds that object too, so that A's list then
    has one entry for each of them. *)
Theorem connect_idempotent (w w1 : world) (depth : nat) (a b : loc) :
  reachable w → connect depth a b w = (Return tt, w1) →
  (∀ depth', connect (S depth') a b w1 = (Return tt, w1)
             ∧ connect (S depth') b a w1 = (Return tt, w1))
  ∧ entries w1 a b = Some 1 ∧ entries w1 b a = Some 1
  ∧ ∀ b' depth' w2,
      b' ≠ b → id <$> heap w1 !! b' = id <$> heap w1 !! b →
      connect depth' a b' w1 = (Return tt, w2) →
      entries w2 a b = Some 1 ∧ entries w2 a b' = Some 1.
Proof.
  intros Hw E. assert (reachable w1) as Hw1 by by eapply reachable_connect.
  destruct (reachable_invariant w1 Hw1) as [Hsym Hnd].
  destruct (connect_links _ _ _ _ _ E) as [Hab _].
  pose proof (Hsym a b Hab) as Hba.
  split; [|split; [|split]].
  - intros depth'. destruct Hab as (oa & Ha & Hina), Hba as (ob & Hb & Hinb).
    split; by eapply connect_known.
  - by apply entries_one.
  - by apply entries_one.
  - intros b' depth' w2 _ _ E'.
    assert (reachable w2) as Hw2 by by eapply reachable_connect.
    destruct (reachable_invariant w2 Hw2) as [_ Hnd2].
    destruct (connect_links _ _ _ _ _ E') as [Hab' Hmono].
    split; apply entries_one; auto.
Qed.

(** ** Roles along a program *)

Lemma role_at_with_peers h t a oa ps l :
  h !! a = Some oa →
  role_at (World (<[a := with_peers ps oa]> h) t) l = role_at (World h t) l.
Proof.
  intros Ha. unfold role_at. cbn [heap]. destruct (decide (l = a)) as [->|Hl].
  - by rewrite lookup_insert_eq, Ha.
  - by rewrite lookup_insert_ne.
Qed.

Lemma connect_role depth a b w l :
  role_at (snd (connect depth a b w)) l = role_at w l.
Proof.
  revert a b w. induction depth as [|depth IH]; intros a b [h t]; [done|].
  rewrite connect_S. unfold bind at 1, deref at 1. cbn [heap].
  destruct (h !! a) as [oa|] eqn:Ha; [|done].
  case_bool_decide; [|done].
  unfold bind at 1, store at 1. cbn [heap trace].
  set (w1 := World (<[a := with_peers (peers oa ++ [b]) oa]> h) t).
  transitivity (role_at w1 l); [|by apply role_at_with_peers].
  rewrite <- (IH b a w1).
  by destruct (connect depth b a w1) as [[[]|e] w2].
Qed.

Lemma set_role_keeps_word_generator self r w l :
  role_at w l = Some WORD_GENERATOR →
  role_at (snd (set_role self r w)) l = Some WORD_GENERATOR.
Proof.
  unfold role_at, set_role, bind, deref, raise, store. intros Hl.
  destruct (heap w !! self) as [o|] eqn:Ho; [|done].
  case_bool_decide as Hr; [done|]. cbn.
  destruct (decide (l = self)) as [->|Hne]; [|by rewrite lookup_insert_ne].
  rewrite Ho in Hl. cbn in Hl. congruence.
Qed.

Lemma new_role_at c identifier r w l :
  is_Some (role_at w l) →
  role_at (snd (new c identifier r w)) l = role_at w l.
Proof.
  intros Hl. destruct (new_heap c identifier r w) as [r' E].
  unfold role_at in *. rewrite E. rewrite lookup_insert_ne; [done|].
  intros <-. rewrite alloc_fresh in Hl. by destruct Hl.
Qed.

Lemma after_keeps_word_generator o w l :
  role_at w l = Some WORD_GENERATOR →
  role_at (after o w) l = Some WORD_GENERATOR.
Proof.
  intros Hl. unfold after. destruct o as [c i r|d a b|a r|d a m s|a m s]; cbn [exec].
  - unfold bind. destruct (new c i r w) as [[l'|e] w'] eqn:E; cbn;
      change w' with (snd (Return l', w')) || change w' with (snd (@Raise loc e, w'));
      rewrite <- E, new_role_at; rewrite ?Hl; eauto.
  - by rewrite connect_role.
  - by apply set_role_keeps_word_generator.
  - unfold role_at. by rewrite send_message_heap.
  - unfold role_at. by rewrite call_receive_message_heap.
Qed.

Lemma after_all_keeps_word_generator os w l :
  role_at w l = Some WORD_GENERATOR →
  role_at (after_all os w) l = Some WORD_GENERATOR.
Proof.
  revert w. induction os as [|o os IH]; intros w Hl; [done|].
  cbn. by apply IH, after_keeps_word_generator.
Qed.

(** C10.  On a node whose role is not WORD_GENERATOR, whatever its class,
    [set_role(WORD_GENERATOR)] returns and makes the role WORD_GENERATOR.
    After that the role stays WORD_GENERATOR along every sequence of
    operations, and every [set_role] on the node raises and changes
    nothing. *)
Theorem word_generator_absorbing (w : world) (self : loc) (o : instance) :
  heap w !! self = Some o → role o ≠ WORD_GENERATOR →
  set_role self WORD_GENERATOR w
  = (Return tt, World (<[self := with_role WORD_GENERATOR o]> (heap w)) (trace w))
  ∧ ∀ os : list op,
      let w' := after_all os (snd (set_role self WORD_GENERATOR w)) in
      role_at w' self = Some WORD_GENERATOR
      ∧ ∀ r, set_role self r w'
             = (Raise (ValueError "WordGenerator role cannot be changed."), w').
Proof.
  intros Ho Hr.
  assert (set_role self WORD_GENERATOR w
    = (Return tt, World (<[self := with_role WORD_GENERATOR o]> (heap w)) (trace w)))
    as E.
  { unfold set_role, bind, deref, store. rewrite Ho.
    by rewrite bool_decide_eq_false_2. }
  split; [done|]. intros os w'.
  assert (role_at w' self = Some WORD_GENERATOR) as Hw'.
  { apply after_all_keeps_word_generator. rewrite E. unfold role_at. cbn.
    by rewrite lookup_insert_eq. }
  split; [done|]. intros r. unfold role_at in Hw'.
  destruct (heap w' !! self) as [o'|] eqn:Ho'; [|done].
  injection Hw' as Hw'. unfold set_role, bind, deref, raise. rewrite Ho'.
  by rewrite bool_decide_eq_true_2.
Qed.

(** ** Unbounded forwarding *)

Lemma send_message_S depth self message sender h t :
  send_message (S depth) self message sender (World h t)
  = (do o <- deref self in
     for_each (forward (send_message depth) self message sender) (peers o))
      (World h (t ++ [Call_send_message self message sender])).
Proof. done. Qed.

Lemma forward_to_sender send self message sender peer p w :
  heap w !! peer = Some p → role p ≠ RECEIVER → peer ≠ self →
  forward send self message sender peer w = send peer message self w.
Proof.
  intros Hp Hr Hs. unfold forward. rewrite (bind_Return _ _ _ p w) by by apply deref_Some.
  by rewrite bool_decide_eq_false_2, bool_decide_eq_true_2.
Qed.

Lemma forward_to_receiver send self message sender peer p s h t :
  h !! peer = Some p → role p = RECEIVER → klass_of p = Receiver →
  h !! sender = Some s →
  forward send self message sender peer (World h t)
  = (Return tt,
     World h (t ++ [Call_receive_message peer message sender;
                    Call_print (receipt_line (id p) (id s) message)])).
Proof.
  intros Hp Hr Hk Hs. unfold forward, call_receive_message, receive_message.
  unfold bind, deref, emit. cbn. rewrite Hp. cbn.
  rewrite bool_decide_eq_true_2 by done. cbn. rewrite ?Hp, Hk. cbn.
  rewrite Hp. cbn. rewrite Hs. cbn. by rewrite <- app_assoc.
Qed.

(** In a ping-pong group every call of [send_message] uses up all the frames
    it is given, and prints nothing on the way. *)
Lemma send_message_overflow h G message :
  ping_pong h G →
  ∀ depth x sender t, G x →
    ∃ evs,
      send_message depth x message sender (World h t)
      = (Raise RecursionError, World h (t ++ evs))
      ∧ omap printed evs = [].
Proof.
  intros HG. induction depth as [|depth IH]; intros x sender t Hx.
  - by exists [Call_send_message x message sender].
  - destruct (HG x Hx) as (ox & p & ps & op & Hox & Hps & Hpx & Hop & Hr & Hp).
    rewrite send_message_S.
    rewrite (bind_Return _ _ _ ox (World h (t ++ [Call_send_message x message sender])))
      by by apply deref_Some.
    rewrite Hps. cbn [for_each].
    destruct (IH p x (t ++ [Call_send_message x message sender]) Hp)
      as (evs & E & Hevs).
    exists (Call_send_message x message sender :: evs). split; [|done].
    erewrite bind_Raise; [|by erewrite forward_to_sender].
    by rewrite <- app_assoc.
Qed.

(** ** Scenarios *)

(** Closes [x ∉ l] for a list [l] of known elements. *)
Ltac absent :=
  cbn; rewrite ?elem_of_cons, ?elem_of_nil; intuition congruence.

Lemma after_connect_new depth a b h t oa ob :
  a ≠ b → h !! a = Some oa → h !! b = Some ob →
  b ∉ peers oa → a ∉ peers ob →
  after (Connect (S (S (S depth))) a b) (World h t)
  = World (<[b := with_peers (peers ob ++ [a]) ob]>
             (<[a := with_peers (peers oa ++ [b]) oa]> h)) t.
Proof. intros. unfold after. cbn [exec]. by erewrite connect_new. Qed.

(** The star: a hub connected to two nodes, in this order. *)
Lemma star_heap w hub r1 r2 oh o1 o2 d1 d2 :
  hub ≠ r1 → hub ≠ r2 → r1 ≠ r2 →
  unconnected w hub oh → unconnected w r1 o1 → unconnected w r2 o2 →
  ∃ h',
    after_all [Connect (S (S (S d1))) hub r1; Connect (S (S (S d2))) hub r2] w
    = World h' (trace w)
    ∧ h' !! hub = Some (with_peers [r1; r2] oh)
    ∧ h' !! r1 = Some (with_peers [hub] o1)
    ∧ h' !! r2 = Some (with_peers [hub] o2).
Proof.
  intros H1 H2 H12 [Hh Hph] [Hr1 Hp1] [Hr2 Hp2]. destruct w as [h t].
  destruct oh as [kh ih ph rh], o1 as [k1 i1 p1 q1], o2 as [k2 i2 p2 q2].
  cbn [heap trace peers] in *. subst ph p1 p2. cbn [after_all foldl].
  erewrite after_connect_new; [|done..|absent|absent].
  erewrite after_connect_new;
    [|done|by simplify_map_eq|by simplify_map_eq|absent..].
  eexists. split; [done|]. by simplify_map_eq.
Qed.

Lemma star_run w hub r1 r2 oh o1 o2 d1 d2 depth message :
  hub ≠ r1 → hub ≠ r2 → r1 ≠ r2 →
  unconnected w hub oh →
  unconnected w r1 o1 → klass_of o1 = Receiver → role o1 = RECEIVER →
  unconnected w r2 o2 → klass_of o2 = Receiver → role o2 = RECEIVER →
  ∃ h',
    after_all [Connect (S (S (S d1))) hub r1; Connect (S (S (S d2))) hub r2] w
    = World h' (trace w)
    ∧ send_message (S depth) hub message hub (World h' (trace w))
      = (Return tt,
         World h' (trace w ++
           [Call_send_message hub message hub;
            Call_receive_message r1 message hub;
            Call_print (receipt_line (id o1) (id oh) message);
            Call_receive_message r2 message hub;
            Call_print (receipt_line (id o2) (id oh) message)])).
Proof.
  intros H1 H2 H12 Hh Hr1 Hk1 Hq1 Hr2 Hk2 Hq2.
  destruct (star_heap w hub r1 r2 oh o1 o2 d1 d2) as (h' & E & Eh & E1 & E2);
    [done..|].
  exists h'. split; [done|]. rewrite send_message_S.
  erewrite bind_Return by by apply deref_Some.
  cbn [peers with_peers for_each].
  erewrite bind_Return by by eapply forward_to_receiver.
  erewrite bind_Return by by eapply forward_to_receiver.
  unfold ret. cbn [id with_peers]. by rewrite <- !app_assoc.
Qed.

Lemma star_stdout w hub r1 r2 oh o1 o2 d1 d2 depth message :
  hub ≠ r1 → hub ≠ r2 → r1 ≠ r2 →
  unconnected w hub oh →
  unconnected w r1 o1 → klass_of o1 = Receiver → role o1 = RECEIVER →
  unconnected w r2 o2 → klass_of o2 = Receiver → role o2 = RECEIVER →
  ∃ w',
    send_message (S depth) hub message hub (star d1 d2 hub r1 r2 w)
    = (Return tt, w')
    ∧ heap w' = heap (star d1 d2 hub r1 r2 w)
    ∧ stdout w'
      = stdout w ++ [receipt_line (id o1) (id oh) message;
                     receipt_line (id o2) (id oh) message].
Proof.
  intros H1 H2 H12 Hh Hr1 Hk1 Hq1 Hr2 Hk2 Hq2. unfold star.
  destruct (star_run w hub r1 r2 oh o1 o2 d1 d2 depth message)
    as (h' & -> & E); [done..|].
  eexists. split; [exact E|]. split; [done|].
  unfold stdout. cbn [trace]. by rewrite omap_app.
Qed.

(** C3, as the code has it.  A hub H of role SENDER and two instances R1
    and R2 of [Receiver], of role RECEIVER, none of them connected yet; H is
    connected to both.  Then [H.send_message(message, H)] returns, changes
    no object, and prints exactly two lines: the receipt of each receiver,
    with the id of H as the sender id, in the order in which the receivers
    were connected.  This holds for both orders. *)
Theorem star_broadcast
    (w : world) (hub r1 r2 : loc) (oh o1 o2 : instance)
    (d1 d2 depth : nat) (message : string) :
  hub ≠ r1 → hub ≠ r2 → r1 ≠ r2 →
  unconnected w hub oh → role oh = SENDER →
  unconnected w r1 o1 → klass_of o1 = Receiver → role o1 = RECEIVER →
  unconnected w r2 o2 → klass_of o2 = Receiver → role o2 = RECEIVER →
  (∃ w',
     send_message (S depth) hub message hub (star d1 d2 hub r1 r2 w)
     = (Return tt, w')
     ∧ heap w' = heap (star d1 d2 hub r1 r2 w)
     ∧ stdout w'
       = stdout w ++ [receipt_line (id o1) (id oh) message;
                      receipt_line (id o2) (id oh) message])
  ∧ (∃ w',
       send_message (S depth) hub message hub (star d1 d2 hub r2 r1 w)
       = (Return tt, w')
       ∧ heap w' = heap (star d1 d2 hub r2 r1 w)
       ∧ stdout w'
         = stdout w ++ [receipt_line (id o2) (id oh) message;
                        receipt_line (id o1) (id oh) message]).
Proof.
  intros H1 H2 H12 Hh _ Hr1 Hk1 Hq1 Hr2 Hk2 Hq2.
  split; by eapply star_stdout.
Qed.

(** The triangle: [a.connect(b)], [b.connect(c)], [c.connect(a)]. *)
Lemma triangle_heap w a b c oa ob oc d1 d2 d3 :
  a ≠ b → b ≠ c → c ≠ a →
  unconnected w a oa → unconnected w b ob → unconnected w c oc →
  ∃ h',
    triangle d1 d2 d3 a b c w = World h' (trace w)
    ∧ h' !! a = Some (with_peers [b; c] oa)
    ∧ h' !! b = Some (with_peers [a; c] ob)
    ∧ h' !! c = Some (with_peers [b; a] oc).
Proof.
  intros Hab Hbc Hca [Ha Hpa] [Hb Hpb] [Hc Hpc]. destruct w as [h t].
  destruct oa as [ka ia pa ra], ob as [kb ib pb rb], oc as [kc ic pc rc].
  cbn [heap trace peers] in *. subst pa pb pc.
  unfold triangle. cbn [after_all foldl].
  erewrite after_connect_new; [|done..|absent|absent].
  erewrite after_connect_new;
    [|done|by simplify_map_eq|by simplify_map_eq|absent..].
  erewrite after_connect_new;
    [|done|by simplify_map_eq|by simplify_map_eq|absent..].
  eexists. split; [done|]. by simplify_map_eq.
Qed.

(** C4.  Three nodes of role SENDER, not connected yet, are connected in a
    triangle.  Then [send_message] on any of the three, with any message and
    sender, exceeds every bound on the depth of the recursion: whatever the
    number of frames, the call ends in [RecursionError], having printed
    nothing. *)
Theorem triangle_unbounded
    (w : world) (a b c : loc) (oa ob oc : instance) (d1 d2 d3 : nat) :
  a ≠ b → b ≠ c → c ≠ a →
  unconnected w a oa → role oa = SENDER →
  unconnected w b ob → role ob = SENDER →
  unconnected w c oc → role oc = SENDER →
  ∀ (depth : nat) (x : loc) (message : string) (sender : loc),
    x = a ∨ x = b ∨ x = c →
    ∃ w',
      send_message depth x message sender (triangle d1 d2 d3 a b c w)
      = (Raise RecursionError, w')
      ∧ stdout w' = stdout w.
Proof.
  intros Hab Hbc Hca Ha Hra Hb Hrb Hc Hrc depth x message sender Hx.
  destruct (triangle_heap w a b c oa ob oc d1 d2 d3)
    as (h' & -> & Ea & Eb & Ec); [done..|].
  assert (ping_pong h' (λ x, x = a ∨ x = b ∨ x = c)) as HS.
  { intros y [-> | [-> | ->] ].
    - exists (with_peers [b; c] oa), b, [c], (with_peers [a; c] ob).
      cbn. rewrite Hrb. auto 10.
    - exists (with_peers [a; c] ob), a, [c], (with_peers [b; c] oa).
      cbn. rewrite Hra. auto 10.
    - exists (with_peers [b; a] oc), b, [a], (with_peers [a; c] ob).
      cbn. rewrite Hrb. auto 10. }
  destruct (send_message_overflow h' _ message HS depth x sender (trace w) Hx)
    as (evs & -> & Hevs).
  eexists. split; [done|]. unfold stdout. cbn [trace].
  by rewrite omap_app, Hevs, app_nil_r.
Qed.

Lemma bind_at {A B} (c c' : M A) (k : A → M B) w :
  c w = c' w → bind c k w = bind c' k w.
Proof. intros E. unfold bind. by rewrite E. Qed.

(** C2, as the code has it.  When the loop of [N.send_message(message,
    sender)] comes to a peer whose role is RECEIVER and which is a
    [Receiver], the calls for the peers before it having returned, it calls
    that peer's [receive_message] with [message] and with the [sender] that
    N itself was called with. *)
Theorem receiver_gets_passed_sender
    (depth : nat) (self : loc) (message : string) (sender : loc)
    (w w1 : world) (o p : instance) (earlier later : list loc) (peer : loc) :
  heap w !! self = Some o → peers o = earlier ++ peer :: later →
  for_each (forward (send_message depth) self message sender) earlier
    (World (heap w) (trace w ++ [Call_send_message self message sender]))
  = (Return tt, w1) →
  heap w1 !! peer = Some p → role p = RECEIVER → klass_of p = Receiver →
  send_message (S depth) self message sender w
  = (run receive_message peer message sender in
     for_each (forward (send_message depth) self message sender) later) w1
  ∧ ∃ evs,
      trace (snd (receive_message peer message sender w1))
      = trace w1 ++ Call_receive_message peer message sender :: evs.
Proof.
  intros Ho Hps Hloop Hp Hr Hk. destruct w as [h t]. cbn [heap trace] in *.
  split.
  - rewrite send_message_S. erewrite bind_Return by by apply deref_Some.
    rewrite Hps. erewrite for_each_app by exact Hloop. cbn [for_each].
    apply bind_at. unfold forward, call_receive_message.
    erewrite bind_Return by by apply deref_Some.
    rewrite bool_decide_eq_true_2 by done.
    erewrite bind_Return by by apply deref_Some. by rewrite Hk.
  - unfold receive_message, bind, emit, deref. cbn. rewrite Hp. cbn.
    destruct (heap w1 !! sender); cbn.
    + eexists [_]. by rewrite <- app_assoc.
    + by exists [].
Qed.

Lemma send_message_overflow_world w G message depth x sender :
  ping_pong (heap w) G → G x →
  ∃ w',
    send_message depth x message sender w = (Raise RecursionError, w')
    ∧ stdout w' = stdout w.
Proof.
  intros HG Hx. destruct w as [h t]. cbn [heap] in HG.
  destruct (send_message_overflow h G message HG depth x sender t Hx)
    as (evs & -> & Hevs).
  eexists. split; [done|]. unfold stdout. cbn [trace].
  by rewrite omap_app, Hevs, app_nil_r.
Qed.

(** ** The scenarios on concrete objects *)

(** C1, on the chain of [chain_world], where A, B and C are the objects 1,
    2 and 3 with the ids 10, 20 and 30.  The method is documented to send
    to all peers "except the sender", but its loop skips [self] instead: B,
    whose peer list is [A, C], forwards to A before it looks at C, and A
    forwards to B again.  So [A.send_message("hi", A)] does not return: it
    ends in [RecursionError] whatever the depth allowed, with nothing
    printed, and in particular without the line that C1 expects. *)
Lemma chain_counterexample :
  (heap chain_world !! 1%positive = Some (Instance Sender 10 [2%positive] SENDER)
   ∧ heap chain_world !! 2%positive
     = Some (Instance Sender 20 [1%positive; 3%positive] SENDER)
   ∧ heap chain_world !! 3%positive
     = Some (Instance Receiver 30 [2%positive] RECEIVER))
  ∧ (∀ depth, ∃ w',
       send_message depth 1 "hi" 1 chain_world = (Raise RecursionError, w')
       ∧ stdout w' = [])
  ∧ ¬ (∃ depth w',
         send_message depth 1 "hi" 1 chain_world = (Return tt, w')
         ∧ stdout w' = [receipt_line 30 20 "hi"]).
Proof.
  assert (heap chain_world !! 1%positive
          = Some (Instance Sender 10 [2%positive] SENDER)) as E1
    by (vm_compute; reflexivity).
  assert (heap chain_world !! 2%positive
          = Some (Instance Sender 20 [1%positive; 3%positive] SENDER)) as E2
    by (vm_compute; reflexivity).
  assert (ping_pong (heap chain_world) (λ x, x = 1%positive ∨ x = 2%positive))
    as HS.
  { intros x [-> | ->]; do 4 eexists;
      (split; [eassumption|]); (split; [reflexivity|]); (split; [lia|]);
      (split; [eassumption|]); split; (done || auto). }
  assert (∀ depth, ∃ w',
    send_message depth 1 "hi" 1 chain_world = (Raise RecursionError, w')
    ∧ stdout w' = []) as Hover.
  { intros depth.
    apply (send_message_overflow_world chain_world _ "hi" depth 1%positive
             1%positive HS).
    by left. }
  split; [|split; [done|]].
  - split; [done|]. split; [done|]. vm_compute; reflexivity.
  - intros (depth & w' & E & _). destruct (Hover depth) as (w'' & E' & _).
    congruence.
Qed.

(** C2 fails in [relay_world], where N is the object 1, its only peer the
    [Receiver] 2, and S the object 3: [N.send_message("m", S)] calls the
    receiver with S as the sender, not with N.  And in [demoted_world],
    where the peer of N is a [Sender] whose role was set to RECEIVER, no
    [receive_message] is called at all: the attribute lookup fails. *)
Lemma relay_counterexample :
  send_message 1 1 "m" 3 relay_world
  = (Return tt,
     World (heap relay_world)
       [Call_send_message 1 "m" 3; Call_receive_message 2 "m" 3;
        Call_print "Receiver id=20 received a message from sender id=30: m"])
  ∧ (Call_receive_message 2 "m" 1
     ∉ trace (snd (send_message 1 1 "m" 3 relay_world)))
  ∧ role_at demoted_world 2 = Some RECEIVER
  ∧ send_message 1 1 "m" 1 demoted_world
    = (Raise AttributeError,
       World (heap demoted_world) [Call_send_message 1 "m" 1]).
Proof.
  assert (send_message 1 1 "m" 3 relay_world
    = (Return tt,
       World (heap relay_world)
         [Call_send_message 1 "m" 3; Call_receive_message 2 "m" 3;
          Call_print "Receiver id=20 received a message from sender id=30: m"]))
    as E by (vm_compute; reflexivity).
  split; [exact E|]. split; [rewrite E; absent|].
  split; vm_compute; reflexivity.
Qed.

(** C3 fails in [plain_star_world], a star whose hub is the object 1 and
    whose first receiver, the object 2, was made by [Node(20,
    Roles.RECEIVER)]: its role is RECEIVER, but it has no
    [receive_message].  [H.send_message("x", H)] raises [AttributeError] at
    that peer, prints nothing, and returns at no depth. *)
Lemma star_counterexample :
  (heap plain_star_world !! 1%positive
   = Some (Instance Sender 10 [2%positive; 3%positive] SENDER)
   ∧ heap plain_star_world !! 2%positive
     = Some (Instance Node 20 [1%positive] RECEIVER)
   ∧ heap plain_star_world !! 3%positive
     = Some (Instance Receiver 30 [1%positive] RECEIVER))
  ∧ send_message 1 1 "x" 1 plain_star_world
    = (Raise AttributeError,
       World (heap plain_star_world) [Call_send_message 1 "x" 1])
  ∧ ¬ (∃ depth w',
         send_message depth 1 "x" 1 plain_star_world = (Return tt, w')).
Proof.
  split; [repeat split; vm_compute; reflexivity|].
  split; [vm_compute; reflexivity|].
  intros (depth & w' & E). destruct depth as [|depth];
    vm_compute in E; discriminate.
Qed.

(** In [relay_world] the receiver 2 is called with the sender 3 that the
    node 1 was called with. *)
Lemma receiver_gets_passed_sender_witness :
  heap relay_world !! 1%positive = Some (Instance Sender 10 [2%positive] SENDER)
  ∧ heap relay_world !! 2%positive
    = Some (Instance Receiver 20 [1%positive] RECEIVER)
  ∧ send_message 1 1 "m" 3 relay_world
    = (run receive_message 2 "m" 3 in
       for_each (forward (send_message 0) 1 "m" 3) [])
        (World (heap relay_world) [Call_send_message 1 "m" 3]).
Proof.
  split; [vm_compute; reflexivity|]. split; [vm_compute; reflexivity|].
  apply (receiver_gets_passed_sender 0 1 "m" 3 relay_world
           (World (heap relay_world) [Call_send_message 1 "m" 3])
           (Instance Sender 10 [2%positive] SENDER)
           (Instance Receiver 20 [1%positive] RECEIVER) [] [] 2%positive);
    vm_compute; reflexivity.
Defined.

(** A star of a hub with the id 10 and receivers with the ids 20 and 30. *)
Lemma star_broadcast_witness :
  unconnected loose_star_world 1 (Instance Sender 10 [] SENDER)
  ∧ unconnected loose_star_world 2 (Instance Receiver 20 [] RECEIVER)
  ∧ unconnected loose_star_world 3 (Instance Receiver 30 [] RECEIVER)
  ∧ (∃ w',
       send_message 1 1 "x" 1 (star 0 0 1 2 3 loose_star_world) = (Return tt, w')
       ∧ heap w' = heap (star 0 0 1 2 3 loose_star_world)
       ∧ stdout w'
         = ["Receiver id=20 received a message from sender id=10: x";
            "Receiver id=30 received a message from sender id=10: x"])
  ∧ (∃ w',
       send_message 1 1 "x" 1 (star 0 0 1 3 2 loose_star_world) = (Return tt, w')
       ∧ heap w' = heap (star 0 0 1 3 2 loose_star_world)
       ∧ stdout w'
         = ["Receiver id=30 received a message from sender id=10: x";
            "Receiver id=20 received a message from sender id=10: x"]).
Proof.
  split; [split; reflexivity|]. split; [split; reflexivity|].
  split; [split; reflexivity|].
  apply (star_broadcast loose_star_world 1 2 3
           (Instance Sender 10 [] SENDER) (Instance Receiver 20 [] RECEIVER)
           (Instance Receiver 30 [] RECEIVER) 0 0 0 "x");
    try lia; try reflexivity; split; reflexivity.
Defined.

(** A triangle of three senders, with the recursion limit of CPython. *)
Lemma triangle_unbounded_witness :
  unconnected loose_triangle_world 1 (Instance Sender 10 [] SENDER)
  ∧ unconnected loose_triangle_world 2 (Instance Sender 20 [] SENDER)
  ∧ unconnected loose_triangle_world 3 (Instance Sender 30 [] SENDER)
  ∧ ∃ w',
      send_message 1000 3 "x" 3 (triangle 0 0 0 1 2 3 loose_triangle_world)
      = (Raise RecursionError, w')
      ∧ stdout w' = [].
Proof.
  split; [split; reflexivity|]. split; [split; reflexivity|].
  split; [split; reflexivity|].
  apply (triangle_unbounded loose_triangle_world 1 2 3
           (Instance Sender 10 [] SENDER) (Instance Sender 20 [] SENDER)
           (Instance Sender 30 [] SENDER) 0 0 0);
    try lia; try reflexivity; split; reflexivity.
Defined.

(** A word generator asked to become a sender. *)
Lemma set_role_spec_witness :
  heap (snd (new_WordGenerator 7 empty_world)) !! 1%positive
  = Some (Instance WordGenerator 7 [] WORD_GENERATOR)
  ∧ set_role 1 SENDER (snd (new_WordGenerator 7 empty_world))
    = (Raise (ValueError "WordGenerator role cannot be changed."),
       snd (new_WordGenerator 7 empty_world)).
Proof.
  split; [reflexivity|].
  apply (set_role_spec (snd (new_WordGenerator 7 empty_world)) 1
           (Instance WordGenerator 7 [] WORD_GENERATOR) SENDER);
    reflexivity.
Defined.

(** Connecting the first two objects of [twins_world]. *)
Lemma connect_symmetric_witness :
  reachable twins_world
  ∧ is_Some (heap twins_world !! 1%positive)
  ∧ is_Some (heap twins_world !! 2%positive)
  ∧ fst (connect 3 1 2 twins_world) = Return tt
  ∧ links (heap (snd (connect 3 1 2 twins_world))) 1 2
  ∧ links (heap (snd (connect 3 1 2 twins_world))) 2 1.
Proof.
  assert (reachable twins_world) as Hw by repeat constructor.
  assert (is_Some (heap twins_world !! 1%positive)) as H1
    by (eexists; reflexivity).
  assert (is_Some (heap twins_world !! 2%positive)) as H2
    by (eexists; reflexivity).
  split; [exact Hw|]. split; [exact H1|]. split; [exact H2|].
  split.
  - apply (connect_symmetric twins_world 3 1 2 Hw H1 H2). lia.
  - apply (connect_symmetric twins_world 3 1 2 Hw H1 H2). reflexivity.
Defined.

(** In [twins_world] the objects 2 and 3 are distinct and both have the id
    20; the object 1 is connected to the one, then to the other. *)
Lemma connect_idempotent_witness :
  reachable twins_world
  ∧ connect 3 1 2 twins_world = (Return tt, snd (connect 3 1 2 twins_world))
  ∧ id <$> heap (snd (connect 3 1 2 twins_world)) !! 3%positive
    = id <$> heap (snd (connect 3 1 2 twins_world)) !! 2%positive
  ∧ entries (snd (connect 3 1 2 twins_world)) 1 2 = Some 1
  ∧ entries (snd (connect 3 1 2 twins_world)) 2 1 = Some 1
  ∧ entries (snd (connect 3 1 3 (snd (connect 3 1 2 twins_world)))) 1 2 = Some 1
  ∧ entries (snd (connect 3 1 3 (snd (connect 3 1 2 twins_world)))) 1 3 = Some 1.
Proof.
  assert (reachable twins_world) as Hw by repeat constructor.
  assert (connect 3 1 2 twins_world
          = (Return tt, snd (connect 3 1 2 twins_world))) as E
    by reflexivity.
  assert (id <$> heap (snd (connect 3 1 2 twins_world)) !! 3%positive
          = id <$> heap (snd (connect 3 1 2 twins_world)) !! 2%positive) as Hid
    by reflexivity.
  destruct (connect_idempotent twins_world (snd (connect 3 1 2 twins_world))
              3 1 2 Hw E) as (_ & Hab & Hba & Htwin).
  split; [exact Hw|]. split; [exact E|]. split; [exact Hid|].
  split; [exact Hab|]. split; [exact Hba|].
  apply (Htwin 3%positive 3); [lia|exact Hid|reflexivity].
Defined.

(** A sender that is made a word generator and then put through a
    program. *)
Lemma word_generator_absorbing_witness :
  heap (snd (new_Sender 10 empty_world)) !! 1%positive
  = Some (Instance Sender 10 [] SENDER)
  ∧ role (Instance Sender 10 [] SENDER) ≠ WORD_GENERATOR
  ∧ role_at
      (after_all [Set_role 1 RECEIVER; New Node 5 SENDER; Connect 3 1 2;
                  Send_message 2 1 "m" 1]
         (snd (set_role 1 WORD_GENERATOR (snd (new_Sender 10 empty_world)))))
      1
    = Some WORD_GENERATOR.
Proof.
  split; [reflexivity|]. split; [discriminate|].
  apply (word_generator_absorbing (snd (new_Sender 10 empty_world)) 1
           (Instance Sender 10 [] SENDER));
    [reflexivity|discriminate].
Defined.

(** * Further properties of the module *)

(** ** Texts *)

Lemma numeral_app s1 s2 : numeral (s1 +:+ s2) = numeral s1 && numeral s2.
Proof.
  induction s1 as [|c s1 IH]; [done|].
  change (numeral_char c && numeral (s1 +:+ s2)
          = numeral_char c && numeral s1 && numeral s2).
  by rewrite IH, andb_assoc.
Qed.

Lemma pretty_N_char_numeral x : numeral_char (pretty_N_char x) = true.
Proof. unfold pretty_N_char. by repeat case_match. Qed.

Lemma pretty_N_go_numeral x s :
  numeral s = true → numeral (pretty_N_go x s) = true.
Proof.
  revert s. induction (N.lt_wf_0 x) as [x _ IH]; intros s Hs.
  assert (x = 0 ∨ 0 < x)%N as [->|?] by lia.
  - by rewrite pretty_N_go_0.
  - rewrite pretty_N_go_step by done. apply IH; [by apply N.div_lt|].
    cbn. by rewrite pretty_N_char_numeral.
Qed.

(** The decimal text of an [int] has digits and a sign only. *)
Lemma pretty_Z_numeral (z : Z) : numeral (pretty z) = true.
Proof.
  destruct z as [|p|p]; [done| |].
  - unfold pretty, pretty_Z, pretty, pretty_positive, pretty, pretty_N.
    case_decide; [done|]. by apply pretty_N_go_numeral.
  - unfold pretty, pretty_Z. rewrite numeral_app. cbn.
    unfold pretty, pretty_positive, pretty, pretty_N.
    case_decide; [done|]. by apply pretty_N_go_numeral.
Qed.

(** Two texts that start with a numeral followed by the same character,
    which is not one of a numeral, start with the same numeral. *)
Lemma numeral_sep_inj s1 s2 c t1 t2 :
  numeral s1 = true → numeral s2 = true → numeral_char c = false →
  s1 +:+ String c t1 = s2 +:+ String c t2 → s1 = s2 ∧ t1 = t2.
Proof.
  revert s2. induction s1 as [|a s1 IH]; intros [|b s2] H1 H2 Hc E; cbn in *.
  - by injection E as ->.
  - injection E as -> _. apply andb_prop in H2 as [H2 _]. congruence.
  - injection E as -> _. apply andb_prop in H1 as [H1 _]. congruence.
  - injection E as -> E. apply andb_prop in H1 as [_ H1].
    apply andb_prop in H2 as [_ H2].
    by destruct (IH s2 H1 H2 Hc E) as [-> ->].
Qed.

Lemma string_app_inv_head (s t1 t2 : string) : s +:+ t1 = s +:+ t2 → t1 = t2.
Proof. induction s as [|c s IH]; [done|]. cbn. intros [= E]. auto. Qed.

Lemma Roles_value_inj r1 r2 : Roles_value r1 = Roles_value r2 → r1 = r2.
Proof. by destruct r1, r2. Qed.

Lemma node_text_inj i1 r1 i2 r2 :
  node_text i1 r1 = node_text i2 r2 → i1 = i2 ∧ r1 = r2.
Proof.
  unfold node_text. intros E. apply string_app_inv_head in E.
  apply numeral_sep_inj in E as [Ei E]; [|apply pretty_Z_numeral..|done].
  apply (inj pretty) in Ei as ->. split; [done|].
  apply (string_app_inv_head " Role=") in E. by apply Roles_value_inj.
Qed.

(** X1.  The line a receiver prints can be read back: two receipt lines are
    equal only if the receiver id, the sender id and the message are. *)
Theorem receipt_line_inj
    (receiver_id1 sender_id1 : Z) (message1 : string)
    (receiver_id2 sender_id2 : Z) (message2 : string) :
  receipt_line receiver_id1 sender_id1 message1
  = receipt_line receiver_id2 sender_id2 message2
  ↔ receiver_id1 = receiver_id2 ∧ sender_id1 = sender_id2
    ∧ message1 = message2.
Proof.
  split; [|by intros (-> & -> & ->)].
  unfold receipt_line. intros E. apply string_app_inv_head in E.
  apply numeral_sep_inj in E as [Er E]; [|apply pretty_Z_numeral..|done].
  apply (inj pretty) in Er as ->.
  apply (string_app_inv_head "received a message from sender id=") in E.
  apply numeral_sep_inj in E as [Es E]; [|apply pretty_Z_numeral..|done].
  apply (inj pretty) in Es as ->. by injection E as ->.
Qed.

(** X2.  [str(node)] changes nothing and tells the id and the role of the
    node, and nothing else: two objects have the same text exactly when
    they have the same id and the same role, whatever their classes and
    peers. *)
Theorem str_tells_id_and_role (w : world) (a b : loc) (oa ob : instance) :
  heap w !! a = Some oa → heap w !! b = Some ob →
  __str__ a w = (Return (node_text (id oa) (role oa)), w)
  ∧ (fst (__str__ a w) = fst (__str__ b w)
     ↔ id oa = id ob ∧ role oa = role ob).
Proof.
  intros Ha Hb. unfold __str__, bind, deref, ret. rewrite Ha, Hb. cbn [fst].
  split; [done|]. split.
  - intros E. apply node_text_inj. congruence.
  - by intros [-> ->].
Qed.

(** ** More on connection management *)

Lemma connect_self depth a h t oa :
  h !! a = Some oa → a ∉ peers oa →
  connect (S (S depth)) a a (World h t)
  = (Return tt, World (<[a := with_peers (peers oa ++ [a]) oa]> h) t).
Proof.
  intros Ha Hna. rewrite connect_S. unfold bind at 1, deref at 1.
  cbn [heap]. rewrite Ha. rewrite bool_decide_eq_true_2 by done.
  unfold bind at 1, store at 1. cbn [heap trace].
  rewrite (connect_known _ _ _ _ (with_peers (peers oa ++ [a]) oa)); [done| |].
  - cbn [heap]. by rewrite lookup_insert_eq.
  - cbn. set_solver.
Qed.

(** The worlds [connect] can leave, whether it returns or raises. *)
Lemma connect_worlds depth a b h t oa w' :
  h !! a = Some oa →
  snd (connect depth a b (World h t)) = w' →
  let h1 := <[a := with_peers (peers oa ++ [b]) oa]> h in
  w' = World h t
  ∨ ((b ∉ peers oa) ∧ w' = World h1 t)
  ∨ ((b ∉ peers oa) ∧ a ≠ b ∧ ∃ ob,
       h !! b = Some ob ∧ (a ∉ peers ob)
       ∧ w' = World (<[b := with_peers (peers ob ++ [a]) ob]> h1) t).
Proof.
  intros Ha E h1. destruct depth as [|d1]; [by left|].
  rewrite connect_S in E. unfold bind at 1, deref at 1 in E.
  cbn [heap] in E. rewrite Ha in E.
  case_bool_decide as Hb; [|by left].
  unfold bind at 1, store at 1 in E. cbn [heap trace] in E. fold h1 in E.
  destruct d1 as [|d2]; [right; left; by split|].
  rewrite connect_S in E. unfold bind at 1, deref at 1 in E. cbn [heap] in E.
  destruct (h1 !! b) as [ob|] eqn:Hob; [|right; left; by split].
  case_bool_decide as Hna; [|right; left; by split].
  assert (a ≠ b) as Hab.
  { intros ->. unfold h1 in Hob. rewrite lookup_insert_eq in Hob.
    injection Hob as <-. apply Hna. cbn. set_solver. }
  unfold h1 in Hob. rewrite lookup_insert_ne in Hob by done.
  unfold bind at 1, store at 1 in E. cbn [heap trace] in E.
  right. right. do 2 (split; [done|]). exists ob. do 2 (split; [done|]).
  destruct d2 as [|d3]; [done|].
  rewrite (connect_known _ _ _ _ (with_peers (peers oa ++ [b]) oa)) in E;
    [done| |].
  - cbn [heap]. unfold h1. by rewrite lookup_insert_ne, lookup_insert_eq.
  - cbn. set_solver.
Qed.

(** X4.  [connect], whether it returns or raises, prints nothing, creates
    and deletes no object, and changes no class, id or role.  To a peer
    list it does at most one thing: it appends the other node of the call,
    which was not in the list, at the end.  The lists of third nodes are as
    they were. *)
Theorem connect_only_appends (depth : nat) (a b : loc) (w : world) :
  trace (snd (connect depth a b w)) = trace w
  ∧ (∀ l, heap w !! l = None → heap (snd (connect depth a b w)) !! l = None)
  ∧ ∀ l o, heap w !! l = Some o →
      ∃ o', heap (snd (connect depth a b w)) !! l = Some o'
        ∧ klass_of o' = klass_of o ∧ id o' = id o ∧ role o' = role o
        ∧ (peers o' = peers o
           ∨ (l = a ∧ (b ∉ peers o) ∧ peers o' = peers o ++ [b])
           ∨ (l = b ∧ (a ∉ peers o) ∧ peers o' = peers o ++ [a])).
Proof.
  destruct w as [h t]. cbn [heap trace].
  destruct (h !! a) as [oa|] eqn:Ha.
  - destruct (connect_worlds depth a b h t oa _ Ha eq_refl)
      as [->|[[Hb ->]|(Hb & Hab & ob & Hob & Hna & ->)]]; cbn [heap trace].
    + split; [done|]. split; [done|]. intros l o Ho. exists o. by repeat split; try left.
    + split; [done|]. split.
      * intros l Hl. rewrite lookup_insert_ne; [done|congruence].
      * intros l o Ho. destruct (decide (l = a)) as [->|Hl].
        -- rewrite lookup_insert_eq. eexists. split; [done|].
           assert (o = oa) as -> by congruence. cbn. repeat split; auto.
        -- rewrite lookup_insert_ne by done. exists o. by repeat split; try left.
    + split; [done|]. split.
      * intros l Hl. rewrite !lookup_insert_ne; [done|congruence..].
      * intros l o Ho. destruct (decide (l = b)) as [->|Hlb].
        -- rewrite lookup_insert_eq. eexists. split; [done|].
           assert (o = ob) as -> by congruence. cbn. repeat split; auto.
        -- rewrite lookup_insert_ne by done.
           destruct (decide (l = a)) as [->|Hla].
           ++ rewrite lookup_insert_eq. eexists. split; [done|].
              assert (o = oa) as -> by congruence. cbn. repeat split; auto.
           ++ rewrite lookup_insert_ne by done. exists o. by repeat split; try left.
  - assert (snd (connect depth a b (World h t)) = World h t) as ->.
    { destruct depth as [|depth]; [done|]. rewrite connect_S.
      unfold bind, deref. cbn [heap]. by rewrite Ha. }
    split; [done|]. split; [done|]. intros l o Ho. exists o. by repeat split; try left.
Qed.

(** X5.  In every world a program can reach, [A.connect(B)] and
    [B.connect(A)] do the same: with three frames each, both return and
    leave the same world. *)
Theorem connect_commutes (w : world) (a b : loc) (d d' : nat) :
  reachable w → is_Some (heap w !! a) → is_Some (heap w !! b) →
  connect (S (S (S d))) a b w = connect (S (S (S d'))) b a w
  ∧ fst (connect (S (S (S d))) a b w) = Return tt.
Proof.
  intros Hw [oa Ha] [ob Hb]. split; [|by apply connect_returns].
  destruct (reachable_invariant w Hw) as [Hsym _]. destruct w as [h t].
  cbn [heap] in *. destruct (decide (b ∈ peers oa)) as [Hin|Hin].
  - destruct (Hsym a b) as (ob' & Hb' & Hin'); [by exists oa|].
    by rewrite (connect_known _ _ _ _ oa), (connect_known _ _ _ _ ob').
  - assert (a ∉ peers ob) as Hin'.
    { intros Hin'. destruct (Hsym b a) as (oa' & Ha' & Hin''); [by exists ob|].
      congruence. }
    destruct (decide (a = b)) as [->|Hab].
    + by rewrite !(connect_self _ _ _ _ oa).
    + rewrite (connect_new _ a b _ _ oa ob), (connect_new _ b a _ _ ob oa)
        by done.
      by rewrite insert_insert_ne.
Qed.

(** X6.  In every world a program can reach, no peer list has an object
    twice, and every object in a peer list exists and has the owner of the
    list in its own peer list. *)
Theorem peer_graph_invariant (w : world) :
  reachable w →
  ∀ a oa, heap w !! a = Some oa →
    NoDup (peers oa)
    ∧ ∀ b, b ∈ peers oa → ∃ ob, heap w !! b = Some ob ∧ a ∈ peers ob.
Proof.
  intros Hw a oa Ha. destruct (reachable_invariant w Hw) as [Hsym Hnd].
  split; [by eapply Hnd|]. intros b Hb. apply Hsym. by exists oa.
Qed.

(** X7.  [connect] is not atomic.  When two nodes that do not list each
    other are connected, there is an amount of stack left with which the
    call raises [RecursionError] between its two appends: A then lists B,
    and B does not list A. *)
Theorem connect_cut_short (w : world) (a b : loc) (oa ob : instance) :
  a ≠ b → heap w !! a = Some oa → heap w !! b = Some ob →
  b ∉ peers oa → a ∉ peers ob →
  ∃ depth,
    connect depth a b w
    = (Raise RecursionError,
       World (<[a := with_peers (peers oa ++ [b]) oa]> (heap w)) (trace w))
    ∧ links (heap (snd (connect depth a b w))) a b
    ∧ ¬ links (heap (snd (connect depth a b w))) b a.
Proof.
  intros Hab Ha Hb Hnb Hna. destruct w as [h t]. cbn [heap trace] in *.
  exists 1.
  assert (connect 1 a b (World h t)
    = (Raise RecursionError,
       World (<[a := with_peers (peers oa ++ [b]) oa]> h) t)) as E1.
  { rewrite connect_S. unfold bind at 1, deref at 1. cbn [heap]. rewrite Ha.
    by rewrite bool_decide_eq_true_2. }
  split; [exact E1|]. rewrite E1. cbn [snd heap]. split.
  - apply links_append; auto.
  - rewrite links_append by done. intros [(ob' & Hb' & Hin)|[? _]]; [|done].
    congruence.
Qed.

(** ** More on role assignment *)

(** X8.  On a node whose role is not WORD_GENERATOR, asking for the role
    the node has changes nothing, and of two [set_role] calls in a row, the
    first not asking for WORD_GENERATOR, only the second counts. *)
Theorem set_role_last_wins (w : world) (self : loc) (o : instance) (r1 r2 : Roles) :
  heap w !! self = Some o → role o ≠ WORD_GENERATOR →
  set_role self (role o) w = (Return tt, w)
  ∧ (r1 ≠ WORD_GENERATOR →
     set_role self r2 (snd (set_role self r1 w)) = set_role self r2 w).
Proof.
  intros Ho Hr. destruct w as [h t]. cbn [heap] in Ho.
  unfold set_role, bind, deref, store. cbn [heap trace]. rewrite Ho.
  rewrite bool_decide_eq_false_2 by done. cbn [snd heap trace]. split.
  - do 2 f_equal. destruct o. by apply insert_id.
  - intros Hr1. rewrite lookup_insert_eq. cbn [role with_role].
    rewrite bool_decide_eq_false_2 by done. cbn [heap trace].
    by rewrite insert_insert_eq.
Qed.

(** ** More on the broadcast *)

Lemma forward_quiet h depth self message sender peer :
  quiet h (broadcast_event h message)
    (forward (send_message depth) self message sender peer).
Proof.
  unfold forward. apply quiet_deref; intros p Hp.
  case_bool_decide as Hr; [by eapply call_receive_message_quiet|].
  case_bool_decide as Hs; [|apply quiet_ret].
  intros t. destruct (send_message_body_quiet h depth peer message self t)
    as (evs & E & Hevs).
  exists (Call_send_message peer message self :: evs). split; [done|].
  constructor; [|done]. cbn. eauto.
Qed.

(** A loop stops at the first body that raises. *)
Lemma for_each_raises {A} h Q (body : A → M unit) xs x0 :
  (∀ x, x ∈ xs → quiet h Q (body x)) → x0 ∈ xs →
  (∀ t, ∃ e, fst (body x0 (World h t)) = Raise e) →
  ∀ t, ∃ e, fst (for_each body xs (World h t)) = Raise e.
Proof.
  induction xs as [|x xs IH]; intros Hq Hin Hr t.
  { by apply elem_of_nil in Hin. }
  cbn [for_each]. unfold bind.
  destruct (Hq x (list_elem_of_here x xs) t) as (evs & E & _).
  destruct (body x (World h t)) as [[[]|e] w1] eqn:Ex; [|by exists e].
  cbn in E. subst w1. apply elem_of_cons in Hin as [->|Hin].
  - destruct (Hr t) as [e He]. rewrite Ex in He. done.
  - apply IH; [|done..]. intros y Hy. apply Hq. by right.
Qed.

Lemma send_message_edge_raises h message :
  ∀ depth n p sender t on op,
    h !! n = Some on → h !! p = Some op → p ∈ peers on → n ∈ peers op →
    n ≠ p → role on ≠ RECEIVER → role op ≠ RECEIVER →
    ∃ e, fst (send_message depth n message sender (World h t)) = Raise e.
Proof.
  induction depth as [|depth IH];
    intros n p sender t on op Hn Hp Hpn Hnp Hne Hrn Hrp.
  { by exists RecursionError. }
  rewrite send_message_S. erewrite bind_Return by by apply deref_Some.
  eapply for_each_raises; [|exact Hpn|].
  - intros x _. apply forward_quiet.
  - intros t'. erewrite forward_to_sender; [|done..|congruence].
    by eapply (IH p n).
Qed.

(** X9.  In every world a program can reach, a broadcast never comes back
    from a neighbour that forwards: if a node whose role is not RECEIVER
    has, among its peers, another node whose role is not RECEIVER, then
    [send_message] on it ends in an exception, whatever the depth allowed,
    the message and the sender. *)
Theorem broadcast_between_forwarders_fails (w : world) (n p : loc) (on op : instance) :
  reachable w →
  heap w !! n = Some on → heap w !! p = Some op → p ∈ peers on → n ≠ p →
  role on ≠ RECEIVER → role op ≠ RECEIVER →
  ∀ depth message sender,
    ∃ e, fst (send_message depth n message sender w) = Raise e.
Proof.
  intros Hw Hn Hp Hpn Hne Hrn Hrp depth message sender.
  destruct (reachable_invariant w Hw) as [Hsym _].
  destruct (Hsym n p) as (op' & Hp' & Hnp); [by exists on|].
  assert (op' = op) as -> by congruence.
  destruct w as [h t]. by eapply send_message_edge_raises.
Qed.

(** X10.  A group of nodes in which the first peer of every node is another
    node of the group whose role is not RECEIVER: [send_message] on a node
    of the group uses up every number of frames, ends in [RecursionError],
    and has printed nothing and changed no object by then. *)
Theorem first_peer_cycle_overflows
    (w : world) (G : loc → Prop) (x : loc)
    (depth : nat) (message : string) (sender : loc) :
  ping_pong (heap w) G → G x →
  ∃ w',
    send_message depth x message sender w = (Raise RecursionError, w')
    ∧ heap w' = heap w ∧ stdout w' = stdout w.
Proof.
  intros HG Hx. destruct w as [h t]. cbn [heap] in HG.
  destruct (send_message_overflow h G message HG depth x sender t Hx)
    as (evs & -> & Hevs).
  eexists. split; [done|]. split; [done|].
  by rewrite stdout_app, Hevs, app_nil_r.
Qed.

(** X11.  A peer whose role is RECEIVER but which is not an instance of
    [Receiver] stops the broadcast: when the loop of [send_message] comes
    to it, the calls for the peers before it having returned, the call
    raises [AttributeError], and neither this peer nor any later one is
    called. *)
Theorem role_without_class_raises
    (depth : nat) (self : loc) (message : string) (sender : loc)
    (w w1 : world) (o p : instance) (earlier later : list loc) (peer : loc) :
  heap w !! self = Some o → peers o = earlier ++ peer :: later →
  for_each (forward (send_message depth) self message sender) earlier
    (World (heap w) (trace w ++ [Call_send_message self message sender]))
  = (Return tt, w1) →
  heap w1 !! peer = Some p → role p = RECEIVER → klass_of p ≠ Receiver →
  send_message (S depth) self message sender w = (Raise AttributeError, w1).
Proof.
  intros Ho Hps Hloop Hp Hr Hk. destruct w as [h t]. cbn [heap trace] in *.
  rewrite send_message_S. erewrite bind_Return by by apply deref_Some.
  rewrite Hps. erewrite for_each_app by exact Hloop. cbn [for_each].
  apply bind_Raise. unfold forward, call_receive_message.
  erewrite bind_Return by by apply deref_Some.
  rewrite bool_decide_eq_true_2 by done.
  erewrite bind_Return by by apply deref_Some.
  by destruct (klass_of p).
Qed.

Lemma forward_skips_self send self message sender o w :
  heap w !! self = Some o → role o ≠ RECEIVER →
  forward send self message sender self w = (Return tt, w).
Proof.
  intros Ho Hr. unfold forward. erewrite bind_Return by by apply deref_Some.
  rewrite bool_decide_eq_false_2 by done.
  by rewrite bool_decide_eq_false_2 by auto.
Qed.

(** The loop over peers that are true receivers, or the node itself. *)
Lemma for_each_receivers h depth self message sender o s ps :
  h !! self = Some o → h !! sender = Some s →
  (∀ p, p ∈ ps → true_receiver h p ∨ (p = self ∧ role o ≠ RECEIVER)) →
  ∀ t, ∃ evs,
    for_each (forward (send_message depth) self message sender) ps (World h t)
    = (Return tt, World h (t ++ evs))
    ∧ omap printed evs = receipts h (id s) message ps.
Proof.
  intros Ho Hs. induction ps as [|p ps IH]; intros Hps t.
  { exists []. by rewrite app_nil_r. }
  cbn [for_each].
  destruct (Hps p (list_elem_of_here p ps)) as [(op & Hp & Hr & Hk)|[-> Hr]].
  - erewrite bind_Return by by eapply forward_to_receiver.
    edestruct IH as (evs & -> & Hevs); [by intros; apply Hps; right|].
    eexists (_ :: _ :: evs). rewrite <- app_assoc. split; [done|].
    unfold receipts in *. cbn. rewrite Hp. cbn.
    rewrite bool_decide_eq_true_2 by done. by rewrite Hevs.
  - erewrite bind_Return by by eapply forward_skips_self.
    edestruct IH as (evs & -> & Hevs); [by intros; apply Hps; right|].
    exists evs. split; [done|].
    unfold receipts in *. cbn. rewrite Ho. cbn.
    by rewrite bool_decide_eq_false_2 by done.
Qed.

(** X12.  A node all of whose peers are true receivers (the node itself may
    be in its list too): with enough stack left, [send_message] on it
    returns, changes no object, and prints the receipt of every receiver
    among its peers, once, in the order of the peer list, with the id of
    the [sender] argument as the sender id. *)
Theorem broadcast_to_receivers
    (self : loc) (message : string) (sender : loc)
    (w : world) (o s : instance) :
  heap w !! self = Some o → heap w !! sender = Some s →
  (∀ p, p ∈ peers o →
     true_receiver (heap w) p ∨ (p = self ∧ role o ≠ RECEIVER)) →
  ∃ enough, ∀ depth, enough ≤ depth →
    ∃ w',
      send_message depth self message sender w = (Return tt, w')
      ∧ heap w' = heap w
      ∧ stdout w' = stdout w ++ receipts (heap w) (id s) message (peers o).
Proof.
  intros Ho Hs Hps. exists 1. intros [|depth] Hd; [lia|].
  destruct w as [h t]. cbn [heap] in *.
  rewrite send_message_S. erewrite bind_Return by by apply deref_Some.
  destruct (for_each_receivers h depth self message sender o s (peers o)
              Ho Hs Hps (t ++ [Call_send_message self message sender]))
    as (evs & -> & Hevs).
  eexists. split; [done|]. split; [done|].
  by rewrite <- app_assoc, stdout_app, <- Hevs.
Qed.

(** X13.  A receiver whose only peer is a hub that forwards, all the peers
    of the hub (the receiver is one of them) being true receivers: with
    enough stack left, [send_message] on the receiver returns, changes no
    object, and prints the receipt of every peer of the hub, in the order
    of the hub's list, with the id of the receiver as the sender id.  The
    receiver's own receipt of its message is one of these lines. *)
Theorem broadcast_through_hub
    (n hub : loc) (message : string) (sender : loc)
    (w : world) (on oh : instance) :
  n ≠ hub →
  heap w !! n = Some on → peers on = [hub] →
  heap w !! hub = Some oh → role oh ≠ RECEIVER → n ∈ peers oh →
  (∀ p, p ∈ peers oh → true_receiver (heap w) p) →
  ∃ enough, ∀ depth, enough ≤ depth →
    ∃ w',
      send_message depth n message sender w = (Return tt, w')
      ∧ heap w' = heap w
      ∧ stdout w' = stdout w ++ receipts (heap w) (id on) message (peers oh)
      ∧ receipt_line (id on) (id on) message
        ∈ receipts (heap w) (id on) message (peers oh).
Proof.
  intros Hne Hn Hpn Hh Hrh Hnh Hps. exists 2.
  intros [|[|depth]] Hd; [lia..|].
  destruct w as [h t]. cbn [heap] in *.
  rewrite send_message_S. erewrite bind_Return by by apply deref_Some.
  rewrite Hpn. cbn [for_each].
  destruct (for_each_receivers h depth hub message n oh on (peers oh)
              Hh Hn (λ p Hp, or_introl (Hps p Hp))
              ((t ++ [Call_send_message n message sender])
                 ++ [Call_send_message hub message n]))
    as (evs & E & Hevs).
  erewrite bind_Return.
  2:{ erewrite forward_to_sender; [|done..|congruence].
      rewrite send_message_S. erewrite bind_Return by by apply deref_Some.
      exact E. }
  eexists. split; [done|]. split; [done|]. split.
  - by rewrite <- !app_assoc, stdout_app, <- Hevs.
  - destruct (Hps n Hnh) as (on' & Hn' & Hr & _).
    assert (on' = on) as -> by congruence.
    apply list_elem_of_omap. exists n. split; [done|].
    rewrite Hn. cbn. by rewrite bool_decide_eq_true_2.
Qed.

(** X14.  A node can be connected to itself: [A.connect(A)] returns with
    two frames and puts A once in its own peer list, and a second call
    changes nothing.  If the role of A is not RECEIVER, [send_message] on A
    then skips that entry: it returns and prints nothing. *)
Theorem self_connection
    (w : world) (a : loc) (oa : instance) (d depth : nat)
    (message : string) (sender : loc) :
  unconnected w a oa →
  let w1 := World (<[a := with_peers [a] oa]> (heap w)) (trace w) in
  connect (S (S d)) a a w = (Return tt, w1)
  ∧ connect (S d) a a w1 = (Return tt, w1)
  ∧ (role oa ≠ RECEIVER →
     send_message (S depth) a message sender w1
     = (Return tt,
        World (heap w1) (trace w ++ [Call_send_message a message sender]))).
Proof.
  intros [Ha Hpa] w1. destruct w as [h t]. cbn [heap trace] in *.
  assert (heap w1 !! a = Some (with_peers [a] oa)) as Ha1
    by (cbn; by rewrite lookup_insert_eq).
  split; [|split].
  - rewrite (connect_self _ _ _ _ oa) by (done || rewrite Hpa; absent).
    by rewrite Hpa.
  - apply (connect_known _ _ _ _ _ Ha1). cbn. set_solver.
  - intros Hr. unfold w1 at 1. rewrite send_message_S.
    erewrite bind_Return by by apply deref_Some.
    cbn [peers with_peers for_each].
    by erewrite bind_Return by by eapply forward_skips_self.
Qed.

(** ** The further properties on concrete objects *)

(** The two receivers of [twins_world] have one id and one role, and so one
    text. *)
Lemma str_tells_id_and_role_witness :
  heap twins_world !! 2%positive = Some (Instance Receiver 20 [] RECEIVER)
  ∧ heap twins_world !! 3%positive = Some (Instance Receiver 20 [] RECEIVER)
  ∧ __str__ 2 twins_world = (Return "Node id=20, Role=receiver", twins_world)
  ∧ fst (__str__ 2 twins_world) = fst (__str__ 3 twins_world).
Proof.
  split; [reflexivity|]. split; [reflexivity|].
  destruct (str_tells_id_and_role twins_world 2 3
              (Instance Receiver 20 [] RECEIVER)
              (Instance Receiver 20 [] RECEIVER)) as [E [_ H]];
    [reflexivity..|].
  split; [exact E|]. apply H. split; reflexivity.
Defined.

(** Connecting the objects 1 and 2 of [twins_world], in either direction. *)
Lemma connect_commutes_witness :
  reachable twins_world
  ∧ is_Some (heap twins_world !! 1%positive)
  ∧ is_Some (heap twins_world !! 2%positive)
  ∧ connect 3 1 2 twins_world = connect 3 2 1 twins_world.
Proof.
  assert (reachable twins_world) as Hw by repeat constructor.
  assert (is_Some (heap twins_world !! 1%positive)) as H1
    by (eexists; reflexivity).
  assert (is_Some (heap twins_world !! 2%positive)) as H2
    by (eexists; reflexivity).
  split; [exact Hw|]. split; [exact H1|]. split; [exact H2|].
  apply (connect_commutes twins_world 1 2 0 0 Hw H1 H2).
Defined.

(** The peer list of the first of two connected senders. *)
Lemma peer_graph_invariant_witness :
  reachable two_senders_world
  ∧ heap two_senders_world !! 1%positive
    = Some (Instance Sender 10 [2%positive] SENDER)
  ∧ NoDup [2%positive]
  ∧ ∀ b, b ∈ [2%positive] →
      ∃ ob, heap two_senders_world !! b = Some ob ∧ 1%positive ∈ peers ob.
Proof.
  assert (reachable two_senders_world) as Hw.
  { apply (reachable_connect
             (snd (new Sender 20 SENDER (snd (new Sender 10 SENDER empty_world))))
             3 1 2); [repeat constructor|reflexivity]. }
  split; [exact Hw|]. split; [reflexivity|].
  apply (peer_graph_invariant two_senders_world Hw 1
           (Instance Sender 10 [2%positive] SENDER)).
  reflexivity.
Defined.

(** Connecting the objects 1 and 2 of [twins_world] with too little stack. *)
Lemma connect_cut_short_witness :
  heap twins_world !! 1%positive = Some (Instance Sender 10 [] SENDER)
  ∧ heap twins_world !! 2%positive = Some (Instance Receiver 20 [] RECEIVER)
  ∧ ∃ depth,
      fst (connect depth 1 2 twins_world) = Raise RecursionError
      ∧ links (heap (snd (connect depth 1 2 twins_world))) 1 2
      ∧ ¬ links (heap (snd (connect depth 1 2 twins_world))) 2 1.
Proof.
  split; [reflexivity|]. split; [reflexivity|].
  destruct (connect_cut_short twins_world 1 2
              (Instance Sender 10 [] SENDER)
              (Instance Receiver 20 [] RECEIVER)) as (depth & E & Hab & Hba);
    [lia|reflexivity|reflexivity|absent|absent|].
  exists depth. split; [by rewrite E|]. by split.
Defined.

(** A sender made a receiver, then an encrypter. *)
Lemma set_role_last_wins_witness :
  heap (snd (new_Sender 10 empty_world)) !! 1%positive
  = Some (Instance Sender 10 [] SENDER)
  ∧ set_role 1 ENCRYPTER
      (snd (set_role 1 RECEIVER (snd (new_Sender 10 empty_world))))
    = set_role 1 ENCRYPTER (snd (new_Sender 10 empty_world)).
Proof.
  split; [reflexivity|].
  apply (set_role_last_wins (snd (new_Sender 10 empty_world)) 1
           (Instance Sender 10 [] SENDER) RECEIVER ENCRYPTER);
    [reflexivity|discriminate|discriminate].
Defined.

(** Two connected senders, with the recursion limit of CPython. *)
Lemma broadcast_between_forwarders_fails_witness :
  reachable two_senders_world
  ∧ heap two_senders_world !! 1%positive
    = Some (Instance Sender 10 [2%positive] SENDER)
  ∧ heap two_senders_world !! 2%positive
    = Some (Instance Sender 20 [1%positive] SENDER)
  ∧ ∃ e, fst (send_message 1000 1 "hi" 1 two_senders_world) = Raise e.
Proof.
  assert (reachable two_senders_world) as Hw.
  { apply (reachable_connect
             (snd (new Sender 20 SENDER (snd (new Sender 10 SENDER empty_world))))
             3 1 2); [repeat constructor|reflexivity]. }
  split; [exact Hw|]. split; [reflexivity|]. split; [reflexivity|].
  apply (broadcast_between_forwarders_fails two_senders_world 1 2
           (Instance Sender 10 [2%positive] SENDER)
           (Instance Sender 20 [1%positive] SENDER) Hw);
    [reflexivity|reflexivity|by left|lia|discriminate|discriminate].
Defined.

(** Two connected senders are a group of the kind that overflows. *)
Lemma first_peer_cycle_overflows_witness :
  ping_pong (heap two_senders_world) (λ x, x = 1%positive ∨ x = 2%positive)
  ∧ ∃ w',
      send_message 1000 2 "hi" 1 two_senders_world = (Raise RecursionError, w')
      ∧ heap w' = heap two_senders_world
      ∧ stdout w' = [].
Proof.
  assert (ping_pong (heap two_senders_world)
            (λ x, x = 1%positive ∨ x = 2%positive)) as HG.
  { intros x [-> | ->].
    - exists (Instance Sender 10 [2%positive] SENDER), 2%positive, [],
        (Instance Sender 20 [1%positive] SENDER).
      split; [reflexivity|]. split; [reflexivity|]. split; [lia|].
      split; [reflexivity|]. split; [discriminate|]. by right.
    - exists (Instance Sender 20 [1%positive] SENDER), 1%positive, [],
        (Instance Sender 10 [2%positive] SENDER).
      split; [reflexivity|]. split; [reflexivity|]. split; [lia|].
      split; [reflexivity|]. split; [discriminate|]. by left. }
  split; [exact HG|].
  apply (first_peer_cycle_overflows two_senders_world _ 2 1000 "hi" 1 HG).
  by right.
Defined.

(** In [demoted_world] the peer 2 of the node 1 is a [Sender] whose role is
    RECEIVER. *)
Lemma role_without_class_raises_witness :
  heap demoted_world !! 1%positive = Some (Instance Sender 10 [2%positive] SENDER)
  ∧ heap demoted_world !! 2%positive
    = Some (Instance Sender 20 [1%positive] RECEIVER)
  ∧ send_message 1 1 "m" 1 demoted_world
    = (Raise AttributeError,
       World (heap demoted_world) [Call_send_message 1 "m" 1]).
Proof.
  split; [reflexivity|]. split; [reflexivity|].
  apply (role_without_class_raises 0 1 "m" 1 demoted_world
           (World (heap demoted_world) [Call_send_message 1 "m" 1])
           (Instance Sender 10 [2%positive] SENDER)
           (Instance Sender 20 [1%positive] RECEIVER) [] [] 2%positive);
    try reflexivity; discriminate.
Defined.

(** The hub of [star_world] broadcasts to its two receivers. *)
Lemma broadcast_to_receivers_witness :
  heap star_world !! 1%positive
  = Some (Instance Sender 10 [2%positive; 3%positive] SENDER)
  ∧ ∃ enough, ∀ depth, enough ≤ depth →
      ∃ w',
        send_message depth 1 "x" 1 star_world = (Return tt, w')
        ∧ heap w' = heap star_world
        ∧ stdout w'
          = ["Receiver id=20 received a message from sender id=10: x";
             "Receiver id=30 received a message from sender id=10: x"].
Proof.
  split; [reflexivity|].
  apply (broadcast_to_receivers 1 "x" 1 star_world
           (Instance Sender 10 [2%positive; 3%positive] SENDER)
           (Instance Sender 10 [2%positive; 3%positive] SENDER));
    [reflexivity|reflexivity|].
  intros p Hp. left. cbn in Hp.
  apply elem_of_cons in Hp as [-> | Hp];
    [|apply elem_of_cons in Hp as [-> | Hp]; [|by apply elem_of_nil in Hp]];
    eexists; (split; [reflexivity|]); split; reflexivity.
Defined.

(** The first receiver of [star_world] broadcasts through the hub: both
    receivers, itself included, print a line that cites its id, 20. *)
Lemma broadcast_through_hub_witness :
  heap star_world !! 2%positive = Some (Instance Receiver 20 [1%positive] RECEIVER)
  ∧ ∃ enough, ∀ depth, enough ≤ depth →
      ∃ w',
        send_message depth 2 "x" 2 star_world = (Return tt, w')
        ∧ heap w' = heap star_world
        ∧ stdout w'
          = ["Receiver id=20 received a message from sender id=20: x";
             "Receiver id=30 received a message from sender id=20: x"]
        ∧ "Receiver id=20 received a message from sender id=20: x"
          ∈ ["Receiver id=20 received a message from sender id=20: x";
             "Receiver id=30 received a message from sender id=20: x"].
Proof.
  split; [reflexivity|].
  apply (broadcast_through_hub 2 1 "x" 2 star_world
           (Instance Receiver 20 [1%positive] RECEIVER)
           (Instance Sender 10 [2%positive; 3%positive] SENDER));
    [lia|reflexivity|reflexivity|reflexivity|discriminate|by left|].
  intros p Hp. cbn in Hp.
  apply elem_of_cons in Hp as [-> | Hp];
    [|apply elem_of_cons in Hp as [-> | Hp]; [|by apply elem_of_nil in Hp]];
    eexists; (split; [reflexivity|]); split; reflexivity.
Defined.

(** A sender connected to itself. *)
Lemma self_connection_witness :
  unconnected (snd (new_Sender 10 empty_world)) 1 (Instance Sender 10 [] SENDER)
  ∧ connect 2 1 1 (snd (new_Sender 10 empty_world))
    = (Return tt,
       World (<[1%positive := Instance Sender 10 [1%positive] SENDER]>
                (heap (snd (new_Sender 10 empty_world)))) []).
Proof.
  split; [split; reflexivity|].
  apply (self_connection (snd (new_Sender 10 empty_world)) 1
           (Instance Sender 10 [] SENDER) 0 0 "m" 1).
  split; reflexivity.
Defined.
